(** * Veo video agent: generation client and message store

    A shallow embedding of the two pieces of the application that carry
    behaviour: [GeminiService.generateVideo] (services/geminiService.ts: submit,
    poll, extract, download) and the message-store updates performed by
    [App.handleSendMessage] (App.tsx).

    The embedding follows the sources statement by statement.  Promises are
    modelled by an exception/state monad over an explicit world that scripts
    the answers of the vendor SDK, of [fetch] and of the browser; every
    awaited call is recorded in a log so that statements about which calls are
    issued, and in which order, can be made.  [console.log]/[console.error]
    calls have no influence on control flow and are left out. *)

From stdpp Require Import gmap strings list pretty.
From Stdlib Require Import ZArith Lia.

Set Default Proof Using "Type".
#[local] Set Warnings "-register-all".

(** ** JavaScript primitives used by the sources *)

Module Js.

(** Truthiness of a string: only the empty string is falsy. *)
Definition truthy (s : string) : bool := negb (String.eqb s "").

(** Truthiness of a possibly [undefined] string. *)
Definition truthy_opt (o : option string) : bool :=
  match o with
  | Some s => truthy s
  | None => false
  end.

(** Truthiness of a possibly [undefined] boolean. *)
Definition truthy_flag (o : option bool) : bool :=
  match o with
  | Some b => b
  | None => false
  end.

(** [a || d] where [a] is a possibly [undefined] string. *)
Definition or_else (a : option string) (d : string) : string :=
  match a with
  | Some s => if truthy s then s else d
  | None => d
  end.

(** [String.prototype.includes]: does [searchString] occur in [s]? *)
Fixpoint includes (s searchString : string) : bool :=
  String.prefix searchString s ||
  match s with
  | EmptyString => false
  | String _ s' => includes s' searchString
  end.

(** Interpolation [${x}] of a possibly [undefined] string in a template
    literal. *)
Definition interpolate (o : option string) : string :=
  match o with
  | Some s => s
  | None => "undefined"
  end.

(** [Number.prototype.toString] on an integer. *)
Definition toString (n : Z) : string := pretty n.

(** Values that occur in the object literals handed to the vendor SDK.  An
    object is a finite map from property names to values: a property that is
    not in the map is absent, which is different from a property bound to
    [JNull] or [JUndefined]. *)
Inductive Value :=
| JUndefined
| JNull
| JStr (s : string)
| JNum (n : Z)
| JObj (o : gmap string Value).

(** A possibly [null] string as a value. *)
Definition nullable (o : option string) : Value :=
  match o with
  | Some s => JStr s
  | None => JNull
  end.

(** An object literal [{ k1: v1, ..., kn: vn }]. *)
Definition object (props : list (string * Value)) : gmap string Value :=
  list_to_map props.

End Js.

(** ** types.ts *)

Module Types.

Inductive Role := user | agent.

Inductive Status := pending | generating | complete | error.

Inductive AspectRatio := ratio_16_9 | ratio_9_16.

Inductive Resolution := res_720p | res_1080p.

(** The string each literal type member denotes at run time. *)
Definition AspectRatio_value (a : AspectRatio) : string :=
  match a with
  | ratio_16_9 => "16:9"
  | ratio_9_16 => "9:16"
  end.

Definition Resolution_value (r : Resolution) : string :=
  match r with
  | res_720p => "720p"
  | res_1080p => "1080p"
  end.

Module Message.
Record t := mk {
  id : string;
  role : Role;
  text : option string;
  image : option string;
  videoUrl : option string;
  status : option Status;
  error : option string;
  timestamp : Z
}.
End Message.

Record GenerationConfig := {
  aspectRatio : AspectRatio;
  resolution : Resolution
}.

(** The [image] of a request.  [mimeType] is declared [string]; App.tsx fills
    it with [mimeType!], which is [null] at run time when the caller passed
    [null], so the field is nullable here. *)
Record ImageData := {
  data : string;
  mimeType : option string
}.

Module GenerationRequest.
Record t := mk {
  prompt : string;
  image : option ImageData;
  config : GenerationConfig
}.
End GenerationRequest.

#[global] Instance Role_eq_dec : EqDecision Role.
Proof. solve_decision. Defined.
#[global] Instance Status_eq_dec : EqDecision Status.
Proof. solve_decision. Defined.
#[global] Instance Message_eq_dec : EqDecision Message.t.
Proof. solve_decision. Defined.

End Types.

(** ** The vendor SDK ([@google/genai]) and browser objects the client sees

    Only the fields the client reads are kept. *)

Module Vendor.

(** [operation.error]: the status object of a failed operation. *)
Record OperationError := {
  message : option string
}.

Record Video := {
  uri : option string
}.

Record GeneratedVideo := {
  video : option Video
}.

Record GenerateVideosResponse := {
  generatedVideos : option (list GeneratedVideo)
}.

(** The operation handle.  [name] is the opaque token of the job. *)
Module Operation.
Record t := mk {
  name : string;
  done : option bool;
  error : option OperationError;
  response : option GenerateVideosResponse
}.
End Operation.

(** The client object [new GoogleGenAI({ apiKey })]. *)
Record GoogleGenAI := {
  apiKey : string
}.

(** The binary body of a download. *)
Record Blob := {
  bytes : list Z
}.

(** A [fetch] response. *)
Module Response.
Record t := mk {
  ok : bool;
  statusText : string;
  body : Blob
}.
End Response.

(** The reason of a rejected promise or a thrown value coming from outside
    the client; [reason_message] is its [message] property, if any. *)
Record Reason := {
  reason_message : option string
}.

(** The settlement of a promise returned by the SDK or the browser. *)
Inductive Settled (A : Type) :=
| Fulfilled (a : A)
| Rejected (r : Reason).
Arguments Fulfilled {A} a.
Arguments Rejected {A} r.

End Vendor.

(** ** services/geminiService.ts *)

Module GeminiService.
Import Types Vendor.

(** *** The world the client runs in

    [env_API_KEY] is [process.env.API_KEY].  The SDK calls and the browser
    calls are scripted: each gives the settlement of the promise the call
    returns.  The answer to a status call may depend on the handle passed and
    on how many status calls were made before it. *)
Record World := {
  env_API_KEY : option string;
  generateVideos : GoogleGenAI → gmap string Js.Value → Settled Operation.t;
  getVideosOperation : GoogleGenAI → nat → Operation.t → Settled Operation.t;
  fetch : string → Settled Response.t;
  blob : Response.t → Settled Blob;
  createObjectURL : Blob → string
}.

(** The awaited calls, as they are logged. *)
Inductive Call :=
| CallGenerateVideos (payload : gmap string Js.Value)
| CallWait (ms : Z)
| CallGetVideosOperation (operation : Operation.t)
| CallFetch (url : string)
| CallBlob (response : Response.t)
| CallCreateObjectURL (b : Blob).

(** Where an awaited promise can reject. *)
Inductive Awaited :=
| AwaitGenerateVideos
| AwaitGetVideosOperation
| AwaitFetch
| AwaitBlob.

(** The [throw new Error(...)] statements of the service, by source line. *)
Inductive ThrowSite :=
| ApiKeyNotFound          (* line 24 *)
| ServiceNotInitialized   (* line 32 *)
| PollingOperationError   (* line 81 *)
| FinalOperationError     (* line 87 *)
| NoVideoReturned         (* line 93 *)
| VideoUriMissing         (* line 98 *)
| DownloadFailed.         (* line 110 *)

(** A thrown value: either an [Error] created by the service itself, with its
    message, or the reason of a rejected awaited promise, which the service
    lets through unchanged. *)
Inductive Thrown :=
| NewError (site : ThrowSite) (message : string)
| Rejection (at_call : Awaited) (r : Reason).

(** [error.message] as the caller reads it. *)
Definition thrown_message (e : Thrown) : option string :=
  match e with
  | NewError _ message => Some message
  | Rejection _ r => reason_message r
  end.

(** The failure kinds of the specification. *)
Inductive FailureKind :=
| AuthError
| RemoteOperationError
| NetworkError
| MissingPayloadError.

(** The kind of each throw statement.  The initialisation guard of line 32
    is none of the four. *)
Definition kind_of (site : ThrowSite) : option FailureKind :=
  match site with
  | ApiKeyNotFound => Some AuthError
  | ServiceNotInitialized => None
  | PollingOperationError => Some RemoteOperationError
  | FinalOperationError => Some RemoteOperationError
  | NoVideoReturned => Some MissingPayloadError
  | VideoUriMissing => Some MissingPayloadError
  | DownloadFailed => Some NetworkError
  end.

(** *** The monad of asynchronous computations

    The state holds the [ai] field of the service object, the log of awaited
    calls (oldest first) and the number of status calls made so far.  A
    computation completes normally, throws, or is still waiting when the
    model's fuel for the poll loop runs out. *)
Record State := {
  ai : option GoogleGenAI;
  log : list Call;
  statusCalls : nat
}.

Inductive Completion (A : Type) :=
| Normal (a : A)
| Throw (e : Thrown)
| Unsettled.
Arguments Normal {A} a.
Arguments Throw {A} e.
Arguments Unsettled {A}.

Definition Async (A : Type) : Type := State → Completion A * State.

Definition ret {A} (a : A) : Async A := λ s, (Normal a, s).

Definition bind {A B} (m : Async A) (k : A → Async B) : Async B :=
  λ s, match m s with
       | (Normal a, s') => k a s'
       | (Throw e, s') => (Throw e, s')
       | (Unsettled, s') => (Unsettled, s')
       end.

Definition throw {A} (e : Thrown) : Async A := λ s, (Throw e, s).

Definition unsettled {A} : Async A := λ s, (Unsettled, s).

(** [try { body } catch (error) { handler }] *)
Definition try_catch {A} (body : Async A) (handler : Thrown → Async A) : Async A :=
  λ s, match body s with
       | (Throw e, s') => handler e s'
       | r => r
       end.

Notation "'let!' x ':=' m 'in' k" := (bind m (λ x, k))
  (at level 10, x name, m at level 100, k at level 200).
Notation "'do!' m 'in' k" := (bind m (λ _, k))
  (at level 10, m at level 100, k at level 200).

Definition get_ai : Async (option GoogleGenAI) := λ s, (Normal (ai s), s).

Definition set_ai (c : GoogleGenAI) : Async unit :=
  λ s, (Normal tt, {| ai := Some c; log := log s; statusCalls := statusCalls s |}).

Definition record (c : Call) : Async unit :=
  λ s, (Normal tt, {| ai := ai s; log := log s ++ [c]; statusCalls := statusCalls s |}).

Definition next_status_call : Async nat :=
  λ s, (Normal (statusCalls s),
        {| ai := ai s; log := log s; statusCalls := S (statusCalls s) |}).

(** [await p] for a promise whose settlement is [p]. *)
Definition await {A} (at_call : Awaited) (p : Settled A) : Async A :=
  match p with
  | Fulfilled a => ret a
  | Rejected r => throw (Rejection at_call r)
  end.

Section Client.
Variable w : World.

(** [const wait = (ms) => new Promise(resolve => setTimeout(resolve, ms))] *)
Definition wait (ms : Z) : Async unit := record (CallWait ms).

(** [this.ai.models.generateVideos(payload)] *)
Definition models_generateVideos (c : GoogleGenAI) (payload : gmap string Js.Value)
  : Async Operation.t :=
  do! record (CallGenerateVideos payload) in
  await AwaitGenerateVideos (generateVideos w c payload).

(** [this.ai.operations.getVideosOperation({ operation })] *)
Definition operations_getVideosOperation (c : GoogleGenAI) (operation : Operation.t)
  : Async Operation.t :=
  do! record (CallGetVideosOperation operation) in
  let! n := next_status_call in
  await AwaitGetVideosOperation (getVideosOperation w c n operation).

(** The constructor's [init] (lines 14-19): the [ai] field of a new service
    object. *)
Definition init : option GoogleGenAI :=
  match env_API_KEY w with
  | Some key => if Js.truthy key then Some {| apiKey := key |} else None
  | None => None
  end.

(** Lines 21-28. *)
Definition ensureInitialized : Async unit :=
  match env_API_KEY w with
  | Some key =>
      if negb (Js.truthy key) then
        throw (NewError ApiKeyNotFound "API Key not found. Please select a key.")
      else
        set_ai {| apiKey := key |}
  | None =>
      throw (NewError ApiKeyNotFound "API Key not found. Please select a key.")
  end.

(** The object literal passed to [generateVideos] (lines 43-47, 53-68). *)
Definition generateConfig (config : GenerationConfig) : gmap string Js.Value :=
  Js.object [("numberOfVideos", Js.JNum 1);
             ("resolution", Js.JStr (Resolution_value (resolution config)));
             ("aspectRatio", Js.JStr (AspectRatio_value (aspectRatio config)))].

Definition modelName : string := "veo-3.1-fast-generate-preview".

Definition payload (request : GenerationRequest.t) : gmap string Js.Value :=
  match GenerationRequest.image request with
  | Some image =>
      Js.object [("model", Js.JStr modelName);
                 ("prompt", Js.JStr (GenerationRequest.prompt request));
                 ("image", Js.JObj (Js.object
                    [("imageBytes", Js.JStr (data image));
                     ("mimeType", Js.nullable (mimeType image))]));
                 ("config", Js.JObj (generateConfig (GenerationRequest.config request)))]
  | None =>
      Js.object [("model", Js.JStr modelName);
                 ("prompt", Js.JStr (GenerationRequest.prompt request));
                 ("config", Js.JObj (generateConfig (GenerationRequest.config request)))]
  end.

(** The message of the error thrown for a failed operation (lines 81, 87). *)
Definition operation_error_message (err : OperationError) : string :=
  Js.or_else (message err) "Unknown error during video generation".

(** The poll loop (lines 74-83).  [fuel] bounds the number of iterations the
    model follows; the loop condition is tested before fuel is looked at, so
    a handle that reports done leaves the loop with any fuel. *)
Fixpoint poll (c : GoogleGenAI) (fuel : nat) (operation : Operation.t)
  : Async Operation.t :=
  if negb (Js.truthy_flag (Operation.done operation)) then
    match fuel with
    | O => unsettled
    | S fuel' =>
        do! wait 5000 in
        let! operation := operations_getVideosOperation c operation in
        match Operation.error operation with
        | Some err => throw (NewError PollingOperationError (operation_error_message err))
        | None => poll c fuel' operation
        end
    end
  else ret operation.

(** Lines 104-106. *)
Definition downloadUrl (videoUri : string) (key : option string) : string :=
  if Js.includes videoUri "?"
  then videoUri +:+ "&key=" +:+ Js.interpolate key
  else videoUri +:+ "?key=" +:+ Js.interpolate key.

(** [operation.response?.generatedVideos] (line 91). *)
Definition response_generatedVideos (operation : Operation.t)
  : option (list GeneratedVideo) :=
  match Operation.response operation with
  | Some r => generatedVideos r
  | None => None
  end.

(** [g.video?.uri] (line 96). *)
Definition video_uri (g : GeneratedVideo) : option string :=
  match video g with
  | Some v => uri v
  | None => None
  end.

(** Lines 86-116: everything after the poll loop. *)
Definition deliver (operation : Operation.t) : Async string :=
  match Operation.error operation with
  | Some err => throw (NewError FinalOperationError (operation_error_message err))
  | None =>
      let generatedVideos := response_generatedVideos operation in
      match generatedVideos with
      | None | Some [] => throw (NewError NoVideoReturned "No video returned from the API.")
      | Some (first :: _) =>
          match video_uri first with
          | None => throw (NewError VideoUriMissing "Video URI is missing.")
          | Some videoUri =>
              if negb (Js.truthy videoUri) then
                throw (NewError VideoUriMissing "Video URI is missing.")
              else
                let key := env_API_KEY w in
                let downloadUrl := downloadUrl videoUri key in
                do! record (CallFetch downloadUrl) in
                let! response := await AwaitFetch (fetch w downloadUrl) in
                if negb (Response.ok response) then
                  throw (NewError DownloadFailed
                           ("Failed to download video: " +:+ Response.statusText response))
                else
                  do! record (CallBlob response) in
                  let! b := await AwaitBlob (blob w response) in
                  do! record (CallCreateObjectURL b) in
                  ret (createObjectURL w b)
          end
      end
  end.

(** [async generateVideo(request)] (lines 30-122). *)
Definition generateVideo (fuel : nat) (request : GenerationRequest.t) : Async string :=
  do! ensureInitialized in
  let! this_ai := get_ai in
  match this_ai with
  | None => throw (NewError ServiceNotInitialized "AI Service failed to initialize")
  | Some c =>
      try_catch
        (let! operation := models_generateVideos c (payload request) in
         let! operation := poll c fuel operation in
         deliver operation)
        (λ error, throw error)
  end.

End Client.

(** The service object right after [new GeminiService()]. *)
Definition fresh (w : World) : State :=
  {| ai := init w; log := []; statusCalls := 0 |}.

(** *** Reasoning about runs *)

(** The number of status calls among logged calls. *)
Fixpoint status_calls_in (calls : list Call) : nat :=
  match calls with
  | [] => 0
  | CallGetVideosOperation _ :: calls => S (status_calls_in calls)
  | _ :: calls => status_calls_in calls
  end.

(** The state after [calls] more awaited calls. *)
Definition logged (s : State) (calls : list Call) : State :=
  {| ai := ai s;
     log := log s ++ calls;
     statusCalls := statusCalls s + status_calls_in calls |}.

(** What a run of the poll loop looks like, told without fuel: started on
    handle [operation] when [n] status calls have been made, the loop awaits
    [calls] and completes as in the last index.  [Unsettled] stands for a loop
    that is still going round. *)
Inductive PollRun (w : World) (c : GoogleGenAI)
  : nat → Operation.t → list Call → Completion Operation.t → Prop :=
| PollRun_done n operation :
    Js.truthy_flag (Operation.done operation) = true →
    PollRun w c n operation [] (Normal operation)
| PollRun_waiting n operation :
    Js.truthy_flag (Operation.done operation) = false →
    PollRun w c n operation [] Unsettled
| PollRun_rejected n operation r :
    Js.truthy_flag (Operation.done operation) = false →
    getVideosOperation w c n operation = Rejected r →
    PollRun w c n operation
      [CallWait 5000; CallGetVideosOperation operation]
      (Throw (Rejection AwaitGetVideosOperation r))
| PollRun_error n operation operation' err :
    Js.truthy_flag (Operation.done operation) = false →
    getVideosOperation w c n operation = Fulfilled operation' →
    Operation.error operation' = Some err →
    PollRun w c n operation
      [CallWait 5000; CallGetVideosOperation operation]
      (Throw (NewError PollingOperationError (operation_error_message err)))
| PollRun_again n operation operation' calls r :
    Js.truthy_flag (Operation.done operation) = false →
    getVideosOperation w c n operation = Fulfilled operation' →
    Operation.error operation' = None →
    PollRun w c (S n) operation' calls r →
    PollRun w c n operation
      (CallWait 5000 :: CallGetVideosOperation operation :: calls) r.

(** The download of lines 108-116 from [url]. *)
Inductive Download (w : World) (url : string)
  : list Call → Completion string → Prop :=
| Download_fetch_rejected r :
    fetch w url = Rejected r →
    Download w url [CallFetch url] (Throw (Rejection AwaitFetch r))
| Download_not_ok response :
    fetch w url = Fulfilled response →
    Response.ok response = false →
    Download w url [CallFetch url]
      (Throw (NewError DownloadFailed
                ("Failed to download video: " +:+ Response.statusText response)))
| Download_blob_rejected response r :
    fetch w url = Fulfilled response →
    Response.ok response = true →
    blob w response = Rejected r →
    Download w url [CallFetch url; CallBlob response] (Throw (Rejection AwaitBlob r))
| Download_ok response b :
    fetch w url = Fulfilled response →
    Response.ok response = true →
    blob w response = Fulfilled b →
    Download w url [CallFetch url; CallBlob response; CallCreateObjectURL b]
      (Normal (createObjectURL w b)).

(** What the part after the loop does on the handle the loop left with. *)
Inductive Delivery (w : World) (operation : Operation.t)
  : list Call → Completion string → Prop :=
| Delivery_operation_error err :
    Operation.error operation = Some err →
    Delivery w operation []
      (Throw (NewError FinalOperationError (operation_error_message err)))
| Delivery_no_video :
    Operation.error operation = None →
    response_generatedVideos operation = None ∨
    response_generatedVideos operation = Some [] →
    Delivery w operation []
      (Throw (NewError NoVideoReturned "No video returned from the API."))
| Delivery_no_uri first rest :
    Operation.error operation = None →
    response_generatedVideos operation = Some (first :: rest) →
    Js.truthy_opt (video_uri first) = false →
    Delivery w operation []
      (Throw (NewError VideoUriMissing "Video URI is missing."))
| Delivery_download first rest videoUri calls result :
    Operation.error operation = None →
    response_generatedVideos operation = Some (first :: rest) →
    video_uri first = Some videoUri →
    Js.truthy videoUri = true →
    Download w (downloadUrl videoUri (env_API_KEY w)) calls result →
    Delivery w operation calls result.

(** A whole run of [generateVideo] on [request], when [n] status calls have
    been made before: the calls it awaits and how it completes. *)
Inductive Run (w : World) (request : GenerationRequest.t) (n : nat)
  : list Call → Completion string → Prop :=
| Run_no_key :
    Js.truthy_opt (env_API_KEY w) = false →
    Run w request n []
      (Throw (NewError ApiKeyNotFound "API Key not found. Please select a key."))
| Run_submit_rejected key r :
    env_API_KEY w = Some key → Js.truthy key = true →
    generateVideos w {| apiKey := key |} (payload request) = Rejected r →
    Run w request n [CallGenerateVideos (payload request)]
      (Throw (Rejection AwaitGenerateVideos r))
| Run_poll_throws key operation calls e :
    env_API_KEY w = Some key → Js.truthy key = true →
    generateVideos w {| apiKey := key |} (payload request) = Fulfilled operation →
    PollRun w {| apiKey := key |} n operation calls (Throw e) →
    Run w request n (CallGenerateVideos (payload request) :: calls) (Throw e)
| Run_polling key operation calls :
    env_API_KEY w = Some key → Js.truthy key = true →
    generateVideos w {| apiKey := key |} (payload request) = Fulfilled operation →
    PollRun w {| apiKey := key |} n operation calls Unsettled →
    Run w request n (CallGenerateVideos (payload request) :: calls) Unsettled
| Run_delivery key operation calls final calls' result :
    env_API_KEY w = Some key → Js.truthy key = true →
    generateVideos w {| apiKey := key |} (payload request) = Fulfilled operation →
    PollRun w {| apiKey := key |} n operation calls (Normal final) →
    Delivery w final calls' result →
    Run w request n (CallGenerateVideos (payload request) :: calls ++ calls') result.

(** [r] is a reason with which the world rejects the promise awaited at
    [at_call]. *)
Definition rejects (w : World) (at_call : Awaited) (r : Reason) : Prop :=
  match at_call with
  | AwaitGenerateVideos => ∃ c payload, generateVideos w c payload = Rejected r
  | AwaitGetVideosOperation =>
      ∃ c n operation, getVideosOperation w c n operation = Rejected r
  | AwaitFetch => ∃ url, fetch w url = Rejected r
  | AwaitBlob => ∃ response, blob w response = Rejected r
  end.


(** The state in which a call of [generateVideo] starts: whatever the [ai]
    field holds, nothing awaited yet. *)
Definition start (a : option GoogleGenAI) : State :=
  {| ai := a; log := []; statusCalls := 0 |}.

(** From the [N]-th status call on, every answer that is not an error
    reports completion. *)
Definition done_from (w : World) (c : GoogleGenAI) (N : nat) : Prop :=
  ∀ k operation operation',
    N ≤ k →
    getVideosOperation w c k operation = Fulfilled operation' →
    Operation.error operation' = None →
    Js.truthy_flag (Operation.done operation') = true.

End GeminiService.

(** ** App.tsx *)

Module App.
Import Types Vendor.

(** The three [useState] cells of the component. *)
Record State := {
  messages : list Message.t;
  isProcessing : bool;
  apiKeySet : bool
}.

Definition quote : string := String (Ascii.ascii_of_nat 34) "".

Definition newline : string := String (Ascii.ascii_of_nat 10) "".

Definition welcome_text : string :=
  "Hello! I'm your Veo video director. I can turn your text descriptions and images into stunning videos."
  +:+ newline +:+ newline +:+ "Try describing a scene like " +:+ quote
  +:+ "A futuristic cyberpunk city with neon lights raining" +:+ quote
  +:+ " or upload an image to animate it!".

(** The initial state (lines 8-17); [now] is [Date.now()] at mount. *)
Definition initial (now : Z) : State :=
  {| messages :=
       [Message.mk "welcome" agent (Some welcome_text) None None None None now];
     isProcessing := false;
     apiKeySet := false |}.

(** [window.aistudio], with the settlement of the promise each of its two
    methods returns. *)
Record AIStudio := {
  hasSelectedApiKey : Settled bool;
  openSelectKey : Settled unit
}.

(** The effect run on mount (lines 29-44).  A rejection is caught and only
    logged. *)
Definition checkApiKey (aistudio : option AIStudio) (env_API_KEY : option string)
    (st : State) : State :=
  match aistudio with
  | Some studio =>
      match hasSelectedApiKey studio with
      | Fulfilled hasKey =>
          {| messages := messages st; isProcessing := isProcessing st;
             apiKeySet := hasKey |}
      | Rejected _ => st
      end
  | None =>
      if Js.truthy_opt env_API_KEY then
        {| messages := messages st; isProcessing := isProcessing st;
           apiKeySet := true |}
      else st
  end.

(** Lines 46-52. *)
Definition handleSelectKey (aistudio : option AIStudio) (st : State) : State :=
  match aistudio with
  | Some studio =>
      match openSelectKey studio with
      | Fulfilled _ =>
          {| messages := messages st; isProcessing := isProcessing st;
             apiKeySet := true |}
      | Rejected _ => st
      end
  | None => st
  end.

(** The four readings of [Date.now()] in one call of [handleSendMessage], by
    source line. *)
Record Clock := {
  now_64 : Z;
  now_70 : Z;
  now_73 : Z;
  now_78 : Z
}.

(** Lines 64-71. *)
Definition newUserMessage (text : string) (imageBase64 : option string)
    (clock : Clock) : Message.t :=
  Message.mk (Js.toString (now_64 clock)) user (Some text)
    (if Js.truthy_opt imageBase64 then imageBase64 else None)
    None None None (now_70 clock).

(** Line 73. *)
Definition agentMessageId (clock : Clock) : string :=
  Js.toString (now_73 clock + 1).

(** Lines 74-79. *)
Definition newAgentMessage (clock : Clock) : Message.t :=
  Message.mk (agentMessageId clock) agent None None None (Some generating) None
    (now_78 clock).

(** The request of lines 85-89. *)
Definition request (text : string) (imageBase64 mimeType : option string)
    (config : GenerationConfig) : GenerationRequest.t :=
  GenerationRequest.mk text
    (match imageBase64 with
     | Some image =>
         if Js.truthy image then Some {| data := image; mimeType := mimeType |}
         else None
     | None => None
     end)
    config.

(** [handleSendMessage] up to its [await] (lines 60-89): the guard, the two
    new messages, and the call that is started, with the id its continuation
    holds on to. *)
Definition handleSendMessage_submit (text : string)
    (imageBase64 mimeType : option string) (config : GenerationConfig)
    (clock : Clock) (st : State) : State * option (string * GenerationRequest.t) :=
  if negb (apiKeySet st) then (st, None)
  else
    ({| messages :=
          messages st ++ [newUserMessage text imageBase64 clock; newAgentMessage clock];
        isProcessing := true;
        apiKeySet := apiKeySet st |},
     Some (agentMessageId clock, request text imageBase64 mimeType config)).

(** The updater of lines 91-101: [prev.map(msg => ...)]. *)
Definition on_success (agentMessageId videoUrl : string) (prev : list Message.t)
  : list Message.t :=
  (λ msg,
     if String.eqb (Message.id msg) agentMessageId then
       Message.mk (Message.id msg) (Message.role msg)
         (Some "Here is your generated video!") (Message.image msg)
         (Some videoUrl) (Some complete) (Message.error msg)
         (Message.timestamp msg)
     else msg) <$> prev.

(** The updater of lines 111-120: [prev.map(msg => ...)]. *)
Definition on_failure (agentMessageId : string) (message : option string)
    (prev : list Message.t) : list Message.t :=
  (λ msg,
     if String.eqb (Message.id msg) agentMessageId then
       Message.mk (Message.id msg) (Message.role msg)
         (Message.text msg) (Message.image msg)
         (Message.videoUrl msg) (Some error)
         (Some (Js.or_else message "Something went wrong while generating the video."))
         (Message.timestamp msg)
     else msg) <$> prev.

(** The test of line 107 on [error.message]. *)
Definition is_key_error (message : option string) : bool :=
  match message with
  | Some m =>
      Js.truthy m &&
      (Js.includes m "Requested entity was not found" ||
       Js.includes m "API key not valid")
  | None => false
  end.

(** [handleSendMessage] from its [await] on (lines 91-123), for the
    completion of the call it awaited.  While the call is unsettled nothing
    runs. *)
Definition handleSendMessage_settle (agentMessageId : string)
    (result : GeminiService.Completion string) (st : State) : State :=
  match result with
  | GeminiService.Normal videoUrl =>
      {| messages := on_success agentMessageId videoUrl (messages st);
         isProcessing := false;
         apiKeySet := apiKeySet st |}
  | GeminiService.Throw e =>
      let message := GeminiService.thrown_message e in
      {| messages := on_failure agentMessageId message (messages st);
         isProcessing := false;
         apiKeySet := if is_key_error message then false else apiKeySet st |}
  | GeminiService.Unsettled => st
  end.

(** What the continuation makes of a message whose id matches: the two
    object literals of lines 93-98 and 113-117 in one. *)
Definition resolved (result : GeminiService.Completion string) (msg : Message.t)
  : Message.t :=
  match result with
  | GeminiService.Normal videoUrl =>
      Message.mk (Message.id msg) (Message.role msg)
        (Some "Here is your generated video!") (Message.image msg)
        (Some videoUrl) (Some complete) (Message.error msg) (Message.timestamp msg)
  | GeminiService.Throw e =>
      Message.mk (Message.id msg) (Message.role msg)
        (Message.text msg) (Message.image msg) (Message.videoUrl msg) (Some error)
        (Some (Js.or_else (GeminiService.thrown_message e)
                 "Something went wrong while generating the video."))
        (Message.timestamp msg)
  | GeminiService.Unsettled => msg
  end.

(** The function mapped over the list by either updater. *)
Definition touch (agentMessageId : string)
    (result : GeminiService.Completion string) (msg : Message.t) : Message.t :=
  if String.eqb (Message.id msg) agentMessageId then resolved result msg else msg.

(** The status values that are ever written. *)
Definition written_status (o : option Status) : Prop :=
  o = None ∨ o = Some generating ∨ o = Some complete ∨ o = Some error.

(** A whole call that nothing else interleaves with. *)
Definition handleSendMessage (w : GeminiService.World) (fuel : nat)
    (text : string) (imageBase64 mimeType : option string)
    (config : GenerationConfig) (clock : Clock) (st : State) : State :=
  match handleSendMessage_submit text imageBase64 mimeType config clock st with
  | (st', None) => st'
  | (st', Some (agentMessageId, request)) =>
      handleSendMessage_settle agentMessageId
        (fst (GeminiService.generateVideo w fuel request (GeminiService.fresh w))) st'
  end.

(** *** Sessions

    What happens to the component during a session, one event at a time.  A
    call of [handleSendMessage] is two events: [Send] runs it up to the
    [await], [Settle] runs the rest when the awaited call has settled.  The
    calls that got past the guard are numbered in the order they were made;
    for each the session keeps the id its continuation captured and whether
    the continuation has run, because a continuation runs at most once. *)
Inductive Event :=
| CheckApiKey (aistudio : option AIStudio) (env_API_KEY : option string)
| SelectKey (aistudio : option AIStudio)
| Send (text : string) (imageBase64 mimeType : option string)
       (config : GenerationConfig) (clock : Clock)
| Settle (call : nat) (result : GeminiService.Completion string).

Record Session := {
  app : State;
  calls : list (string * bool)
}.

Definition settled_result (result : GeminiService.Completion string) : bool :=
  match result with
  | GeminiService.Unsettled => false
  | _ => true
  end.

(** One event.  A [Settle] for a call that does not exist, whose continuation
    has already run, or with no settlement, does not happen: the session is
    left as it is. *)
Definition step (e : Event) (s : Session) : Session :=
  match e with
  | CheckApiKey aistudio env_API_KEY =>
      {| app := checkApiKey aistudio env_API_KEY (app s); calls := calls s |}
  | SelectKey aistudio =>
      {| app := handleSelectKey aistudio (app s); calls := calls s |}
  | Send text imageBase64 mimeType config clock =>
      match handleSendMessage_submit text imageBase64 mimeType config clock (app s) with
      | (st, None) => {| app := st; calls := calls s |}
      | (st, Some (agentMessageId, _)) =>
          {| app := st; calls := calls s ++ [(agentMessageId, false)] |}
      end
  | Settle call result =>
      match calls s !! call with
      | Some (agentMessageId, false) =>
          if settled_result result then
            {| app := handleSendMessage_settle agentMessageId result (app s);
               calls := <[call := (agentMessageId, true)]> (calls s) |}
          else s
      | _ => s
      end
  end.

Definition run (events : list Event) (s : Session) : Session :=
  fold_left (λ s e, step e s) events s.

(** The session at mount. *)
Definition mounted (now : Z) : Session :=
  {| app := initial now; calls := [] |}.

(** How many of the events change the message at index [k]. *)
Fixpoint changes (k : nat) (events : list Event) (s : Session) : nat :=
  match events with
  | [] => 0
  | e :: events =>
      (if decide (messages (app (step e s)) !! k = messages (app s) !! k)
       then 0 else 1)
      + changes k events (step e s)
  end.

(** Where the placeholder of the [call]-th call sits in the list: after the
    welcome message each call adds a user message and its placeholder. *)
Definition placeholder_index (call : nat) : nat := 2 * call + 2.
Arguments placeholder_index : simpl never.

(** Sessions in which the messages and the calls line up. *)
Definition wf (s : Session) : Prop :=
  length (messages (app s)) = placeholder_index (length (calls s)) - 1 ∧
  ∀ j a b, calls s !! j = Some (a, b) →
    ∃ msg, messages (app s) !! placeholder_index j = Some msg ∧
           Message.id msg = a.

End App.

(** ** Scenarios

    Concrete worlds and sessions on which the statements below are tried. *)

Module Scenario.
Import Types Vendor.

Definition landscape_720p : GenerationConfig :=
  {| aspectRatio := ratio_16_9; resolution := res_720p |}.

(** The request of the end-to-end scenario of the specification. *)
Definition lake : GenerationRequest.t :=
  GenerationRequest.mk "a calm lake at sunset" None landscape_720p.

Definition pending_operation : Operation.t :=
  Operation.mk "operations/lake" (Some false) None None.

Definition finished_operation (videos : list GeneratedVideo) : Operation.t :=
  Operation.mk "operations/lake" (Some true) None
    (Some {| generatedVideos := Some videos |}).

Definition failed_answer : Operation.t :=
  Operation.mk "operations/lake" (Some false)
    (Some {| message := Some "quota exceeded" |}) None.

Definition lake_video : GeneratedVideo :=
  {| video := Some {| uri := Some "https://videos.example/lake.mp4?alt=media" |} |}.

Definition lake_bytes : Blob := {| bytes := [0; 1; 2]%Z |}.

(** The vendor accepts the request, answers "not done" to the first status
    call and "done" with one result to the second; the download succeeds. *)
Definition lake_world : GeminiService.World :=
  {| GeminiService.env_API_KEY := Some "KEY";
     GeminiService.generateVideos := λ _ _, Fulfilled pending_operation;
     GeminiService.getVideosOperation := λ _ n _,
       match n with
       | 0 => Fulfilled pending_operation
       | _ => Fulfilled (finished_operation [lake_video])
       end;
     GeminiService.fetch := λ _, Fulfilled (Response.mk true "OK" lake_bytes);
     GeminiService.blob := λ response, Fulfilled (Response.body response);
     GeminiService.createObjectURL := λ _, "blob:lake" |}.

(** The same vendor, but the second status answer carries an error. *)
Definition failing_world : GeminiService.World :=
  {| GeminiService.env_API_KEY := Some "KEY";
     GeminiService.generateVideos := λ _ _, Fulfilled pending_operation;
     GeminiService.getVideosOperation := λ _ n _,
       match n with
       | 0 => Fulfilled pending_operation
       | _ => Fulfilled failed_answer
       end;
     GeminiService.fetch := λ _, Fulfilled (Response.mk true "OK" lake_bytes);
     GeminiService.blob := λ response, Fulfilled (Response.body response);
     GeminiService.createObjectURL := λ _, "blob:lake" |}.

(** A vendor that reports completion at once, with an empty result list. *)
Definition empty_world : GeminiService.World :=
  {| GeminiService.env_API_KEY := Some "KEY";
     GeminiService.generateVideos := λ _ _, Fulfilled (finished_operation []);
     GeminiService.getVideosOperation := λ _ _ _, Fulfilled (finished_operation []);
     GeminiService.fetch := λ _, Fulfilled (Response.mk true "OK" lake_bytes);
     GeminiService.blob := λ response, Fulfilled (Response.body response);
     GeminiService.createObjectURL := λ _, "blob:lake" |}.

(** A clock that reads [t] at all four places of a call. *)
Definition clock_at (t : Z) : App.Clock :=
  {| App.now_64 := t; App.now_70 := t; App.now_73 := t; App.now_78 := t |}.

Definition studio : App.AIStudio :=
  {| App.hasSelectedApiKey := Fulfilled true; App.openSelectKey := Fulfilled tt |}.

Definition download_failure : GeminiService.Thrown :=
  GeminiService.NewError GeminiService.DownloadFailed
    "Failed to download video: Forbidden".

(** Mount, then one call that is made when the clock reads [t]. *)
Definition first_call (t : Z) : list App.Event :=
  [App.CheckApiKey (Some studio) None;
   App.Send "a calm lake at sunset" None None landscape_720p (clock_at t)].

(** The first call succeeds; a second call, made when the clock reads [t'],
    fails. *)
Definition then_second_call (t' : Z) : list App.Event :=
  [App.Settle 0 (GeminiService.Normal "blob:lake");
   App.Send "the same lake at night" None None landscape_720p (clock_at t');
   App.Settle 1 (GeminiService.Throw download_failure)].

End Scenario.

(** ** More JavaScript string primitives

    Used by the input component.  A string is read as the UTF-8 encoding of
    the text it stands for, which is how a string literal is read here.
    Searching, splitting, joining and comparing texts are the same on the
    encoding; stripping white space has to know how white space is encoded. *)

Module JsString.

Definition is_byte (c : Ascii.ascii) (n : nat) : bool :=
  Nat.eqb (Ascii.nat_of_ascii c) n.

(** White space and line terminators encoded in one byte: TAB, LF, VT, FF,
    CR (9 to 13) and the space (32). *)
Definition isWhiteSpace1 (c1 : Ascii.ascii) : bool :=
  let n := Ascii.nat_of_ascii c1 in
  (Nat.leb 9 n && Nat.leb n 13) || Nat.eqb n 32.

(** In two bytes: the no-break space U+00A0 (C2 A0). *)
Definition isWhiteSpace2 (c1 c2 : Ascii.ascii) : bool :=
  is_byte c1 194 && is_byte c2 160.

(** In three bytes: U+1680 (E1 9A 80), U+2000 to U+200A (E2 80 80 to
    E2 80 8A), the line and paragraph separators U+2028 and U+2029
    (E2 80 A8, E2 80 A9), U+202F (E2 80 AF), U+205F (E2 81 9F), U+3000
    (E3 80 80) and the byte order mark U+FEFF (EF BB BF). *)
Definition isWhiteSpace3 (c1 c2 c3 : Ascii.ascii) : bool :=
  let n3 := Ascii.nat_of_ascii c3 in
  (is_byte c1 225 && is_byte c2 154 && is_byte c3 128) ||
  (is_byte c1 226 && is_byte c2 128 &&
   ((Nat.leb 128 n3 && Nat.leb n3 138) ||
    Nat.eqb n3 168 || Nat.eqb n3 169 || Nat.eqb n3 175)) ||
  (is_byte c1 226 && is_byte c2 129 && is_byte c3 159) ||
  (is_byte c1 227 && is_byte c2 128 && is_byte c3 128) ||
  (is_byte c1 239 && is_byte c2 187 && is_byte c3 191).

(** [String.prototype.trimStart]: white space is stripped from the front,
    one character (of one, two or three bytes) at a time. *)
Fixpoint trimStart (s : string) : string :=
  match s with
  | EmptyString => EmptyString
  | String c1 s1 =>
      if isWhiteSpace1 c1 then trimStart s1
      else
        match s1 with
        | EmptyString => s
        | String c2 s2 =>
            if isWhiteSpace2 c1 c2 then trimStart s2
            else
              match s2 with
              | EmptyString => s
              | String c3 s3 =>
                  if isWhiteSpace3 c1 c2 c3 then trimStart s3 else s
              end
        end
  end.

(** [String.prototype.trimEnd]: what is left is the text up to its last
    character that is not white space; so a byte is kept exactly when not
    everything from it on is white space. *)
Fixpoint trimEnd (s : string) : string :=
  match s with
  | EmptyString => EmptyString
  | String c s' =>
      if Js.truthy (trimStart s) then String c (trimEnd s') else EmptyString
  end.

(** [String.prototype.trim] *)
Definition trim (s : string) : string := trimEnd (trimStart s).

(** [String.prototype.startsWith] *)
Definition startsWith (s searchString : string) : bool :=
  String.prefix searchString s.

(** [s.split(sep)] for a separator of one byte: the pieces between the
    occurrences of [sep], in order; always at least one piece. *)
Fixpoint split (s : string) (sep : Ascii.ascii) : list string :=
  match s with
  | EmptyString => [EmptyString]
  | String c s' =>
      if Ascii.eqb c sep then EmptyString :: split s' sep
      else
        match split s' sep with
        | piece :: pieces => String c piece :: pieces
        | [] => [String c EmptyString]
        end
  end.

End JsString.

(** ** components/ChatInput.tsx *)

Module ChatInput.
Import Types.

(** The image held by the component (line 12).  [base64] is
    [result.split(',')[1]], which is [undefined] when the result has no
    comma. *)
Record SelectedImage := {
  base64 : option string;
  mimeType : string;
  preview : string
}.

(** The four [useState] cells (lines 11-17). *)
Record State := {
  text : string;
  selectedImage : option SelectedImage;
  showSettings : bool;
  config : GenerationConfig
}.

Definition initial : State :=
  {| text := EmptyString;
     selectedImage := None;
     showSettings := false;
     config := {| aspectRatio := ratio_16_9; resolution := res_720p |} |}.

(** The arguments of a call of [onSendMessage]. *)
Record Sent := {
  sent_text : string;
  sent_imageBase64 : option string;
  sent_mimeType : option string;
  sent_config : GenerationConfig
}.

(** What a handler does besides updating the state. *)
Inductive Output :=
| Nothing
| Alert (message : string)
| OnSendMessage (args : Sent).

(** The byte of [','], the separator of line 35. *)
Definition comma : Ascii.ascii := Ascii.ascii_of_nat 44.

(** [a || null] on a possibly [undefined] string. *)
Definition or_null (a : option string) : option string :=
  if Js.truthy_opt a then a else None.

(** [handleImageSelect] (lines 21-47) for the first file of the input, if
    any, given by its [type] and by what the reader holds when it is done
    ([null] after a failed read, on which [result.split] throws and no state
    is set). *)
Definition handleImageSelect (file : option (string * option string))
    (st : State) : State * Output :=
  match file with
  | None => (st, Nothing)
  | Some (type, reader_result) =>
      if negb (JsString.startsWith type "image/") then
        (st, Alert "Please upload a valid image file.")
      else
        match reader_result with
        | None => (st, Nothing)
        | Some result =>
            ({| text := text st;
                selectedImage :=
                  Some {| base64 := JsString.split result comma !! 1;
                          mimeType := type;
                          preview := result |};
                showSettings := showSettings st;
                config := config st |},
             Nothing)
        end
  end.

(** [handleSend] (lines 49-61). *)
Definition handleSend (st : State) : State * Output :=
  if negb (Js.truthy (JsString.trim (text st))) &&
     match selectedImage st with Some _ => false | None => true end
  then (st, Nothing)
  else
    ({| text := EmptyString;
        selectedImage := None;
        showSettings := showSettings st;
        config := config st |},
     OnSendMessage
       {| sent_text := text st;
          sent_imageBase64 :=
            match selectedImage st with
            | Some image => or_null (base64 image)
            | None => None
            end;
          sent_mimeType :=
            match selectedImage st with
            | Some image => or_null (Some (mimeType image))
            | None => None
            end;
          sent_config := config st |}).

(** [handleKeyDown] (lines 63-68). *)
Definition handleKeyDown (key : string) (shiftKey : bool) (st : State)
  : State * Output :=
  if String.eqb key "Enter" && negb shiftKey then handleSend st
  else (st, Nothing).

(** The [disabled] attribute of the send button (line 174). *)
Definition send_button_disabled (disabled : bool) (st : State) : bool :=
  disabled ||
  (negb (Js.truthy (JsString.trim (text st))) &&
   match selectedImage st with Some _ => false | None => true end).

(** What the user can do to the component.  [disabled] is the prop of the
    same name: a disabled text area gets neither input nor key events, a
    disabled button no click. *)
Inductive Event :=
| Change (value : string)
| SelectFile (file : option (string * option string))
| RemoveImage
| ToggleSettings
| SetAspectRatio (a : AspectRatio)
| SetResolution (r : Resolution)
| KeyDown (key : string) (shiftKey : bool)
| ClickSend.

Definition step (disabled : bool) (e : Event) (st : State) : State * Output :=
  match e with
  | Change value =>
      if disabled then (st, Nothing)
      else ({| text := value; selectedImage := selectedImage st;
               showSettings := showSettings st; config := config st |}, Nothing)
  | SelectFile file => handleImageSelect file st
  | RemoveImage =>
      ({| text := text st; selectedImage := None;
          showSettings := showSettings st; config := config st |}, Nothing)
  | ToggleSettings =>
      ({| text := text st; selectedImage := selectedImage st;
          showSettings := negb (showSettings st); config := config st |}, Nothing)
  | SetAspectRatio a =>
      ({| text := text st; selectedImage := selectedImage st;
          showSettings := showSettings st;
          config := {| aspectRatio := a; resolution := resolution (config st) |} |},
       Nothing)
  | SetResolution r =>
      ({| text := text st; selectedImage := selectedImage st;
          showSettings := showSettings st;
          config := {| aspectRatio := aspectRatio (config st); resolution := r |} |},
       Nothing)
  | KeyDown key shiftKey =>
      if disabled then (st, Nothing) else handleKeyDown key shiftKey st
  | ClickSend =>
      if send_button_disabled disabled st then (st, Nothing) else handleSend st
  end.

(** The component after a series of events, each met with its own value of
    the [disabled] prop. *)
Definition after (events : list (bool * Event)) (st : State) : State :=
  fold_left (λ st e, fst (step (fst e) (snd e) st)) events st.

End ChatInput.

(** ** components/ChatMessage.tsx *)

Module ChatMessage.
Import Types.

(** What a message is rendered as: the side it is on and which of the
    optional parts of the bubble are there, with what they show. *)
Record View := {
  isAgent : bool;
  text : option string;
  image_src : option string;
  generating_indicator : bool;
  error_banner : option string;
  video : option (string * string)
}.

Definition is_status (o : option Status) (s : Status) : bool :=
  match o with
  | Some s' => bool_decide (s' = s)
  | None => false
  end.

(** Lines 9-89: [video] pairs the [src] of the player (also the [href] of the
    download link) with the name the download gets. *)
Definition render (message : Message.t) : View :=
  {| isAgent := bool_decide (Message.role message = agent);
     text := if Js.truthy_opt (Message.text message) then Message.text message
             else None;
     image_src :=
       match Message.image message with
       | Some image =>
           if Js.truthy image then Some ("data:image/jpeg;base64," +:+ image)
           else None
       | None => None
       end;
     generating_indicator := is_status (Message.status message) generating;
     error_banner :=
       if is_status (Message.status message) error &&
          Js.truthy_opt (Message.error message)
       then Message.error message else None;
     video :=
       match Message.videoUrl message with
       | Some videoUrl =>
           if Js.truthy videoUrl && is_status (Message.status message) complete
           then Some (videoUrl,
                      "veo-generation-" +:+ Js.toString (Message.timestamp message)
                      +:+ ".mp4")
           else None
       | None => None
       end |}.

End ChatMessage.

(** ** The page: input component, message store and service together *)

Module Page.
Import Types.

(** What the user and the environment can do to the page.  The input
    component is only there while the key-ready flag is set (App.tsx line
    126), and it is disabled while [isProcessing] is set (line 199); the
    state it is in when the user sends is left open here. *)
Inductive Action :=
| MountCheck (aistudio : option App.AIStudio) (env_API_KEY : option string)
| SelectKey (aistudio : option App.AIStudio)
| Input (input : ChatInput.State) (e : ChatInput.Event) (clock : App.Clock)
| Settle (call : nat) (result : GeminiService.Completion string).

(** The event of the store an action comes down to, if any. *)
Definition event_of (a : Action) (s : App.Session) : option App.Event :=
  match a with
  | MountCheck aistudio env_API_KEY => Some (App.CheckApiKey aistudio env_API_KEY)
  | SelectKey aistudio => Some (App.SelectKey aistudio)
  | Input input e clock =>
      if App.apiKeySet (App.app s) then
        match snd (ChatInput.step (App.isProcessing (App.app s)) e input) with
        | ChatInput.OnSendMessage args =>
            Some (App.Send (ChatInput.sent_text args)
                    (ChatInput.sent_imageBase64 args)
                    (ChatInput.sent_mimeType args)
                    (ChatInput.sent_config args) clock)
        | _ => None
        end
      else None
  | Settle call result => Some (App.Settle call result)
  end.

Definition act (a : Action) (s : App.Session) : App.Session :=
  match event_of a s with
  | Some e => App.step e s
  | None => s
  end.

Definition perform (actions : list Action) (s : App.Session) : App.Session :=
  fold_left (λ s a, act a s) actions s.

(** The calls whose continuation has not run. *)
Definition in_flight (s : App.Session) : list (string * bool) :=
  List.filter (λ c, negb (snd c)) (App.calls s).

End Page.

(** ** Counting awaited calls *)

Module Log.
Import GeminiService.

Fixpoint count (p : Call → bool) (calls : list Call) : nat :=
  match calls with
  | [] => 0
  | c :: calls => (if p c then 1 else 0) + count p calls
  end.

Definition is_generate (c : Call) : bool :=
  match c with CallGenerateVideos _ => true | _ => false end.

Definition is_wait (c : Call) : bool :=
  match c with CallWait _ => true | _ => false end.

Definition is_status_call (c : Call) : bool :=
  match c with CallGetVideosOperation _ => true | _ => false end.

Definition is_fetch (c : Call) : bool :=
  match c with CallFetch _ => true | _ => false end.

Definition is_blob (c : Call) : bool :=
  match c with CallBlob _ => true | _ => false end.

Definition is_createObjectURL (c : Call) : bool :=
  match c with CallCreateObjectURL _ => true | _ => false end.

(** The time spent in [wait]. *)
Fixpoint waited (calls : list Call) : Z :=
  match calls with
  | [] => 0
  | CallWait ms :: calls => ms + waited calls
  | _ :: calls => waited calls
  end.

End Log.

(** ** What a call of the client looks like from outside *)

Module Trace.
Import Types Vendor GeminiService.

(** The calls of the rounds of the loop made on the handles [polled], in
    order: for each handle a wait of 5000 ms, then the status call with that
    handle. *)
Fixpoint rounds (polled : list Operation.t) : list Call :=
  match polled with
  | [] => []
  | operation :: polled =>
      CallWait 5000 :: CallGetVideosOperation operation :: rounds polled
  end.

(** The handles the loop holds one after the other.  It starts with
    [current] when [n] status calls have been made; [polled] are the handles
    a whole round was made on: each is the handle held at that time, its
    status call was answered without an error, and the answer is the handle
    held next.  [last] is the handle held after these rounds. *)
Fixpoint handed_on (w : World) (c : GoogleGenAI) (n : nat) (current : Operation.t)
    (polled : list Operation.t) (last : Operation.t) : Prop :=
  match polled with
  | [] => last = current
  | operation :: polled =>
      operation = current ∧
      ∃ answer,
        getVideosOperation w c n operation = Fulfilled answer ∧
        Operation.error answer = None ∧
        handed_on w c (S n) answer polled last
  end.


End Trace.

(** ** More scenarios *)

Module Scenario2.
Import Types Vendor.

(** A handle that is done at once and carries an error. *)
Definition rejected_prompt : Operation.t :=
  Operation.mk "operations/lake" (Some true)
    (Some {| message := Some "prompt was blocked" |}) None.

Definition blocked_world : GeminiService.World :=
  {| GeminiService.env_API_KEY := Some "KEY";
     GeminiService.generateVideos := λ _ _, Fulfilled rejected_prompt;
     GeminiService.getVideosOperation := λ _ _ _, Fulfilled rejected_prompt;
     GeminiService.fetch := λ _, Fulfilled (Response.mk true "OK" Scenario.lake_bytes);
     GeminiService.blob := λ response, Fulfilled (Response.body response);
     GeminiService.createObjectURL := λ _, "blob:lake" |}.

(** The vendor of [Scenario.lake_world], but the download is refused. *)
Definition forbidden_world : GeminiService.World :=
  {| GeminiService.env_API_KEY := Some "KEY";
     GeminiService.generateVideos := λ _ _, Fulfilled Scenario.pending_operation;
     GeminiService.getVideosOperation := λ _ n _,
       match n with
       | 0 => Fulfilled Scenario.pending_operation
       | _ => Fulfilled (Scenario.finished_operation [Scenario.lake_video])
       end;
     GeminiService.fetch := λ _,
       Fulfilled (Response.mk false "Forbidden" Scenario.lake_bytes);
     GeminiService.blob := λ response, Fulfilled (Response.body response);
     GeminiService.createObjectURL := λ _, "blob:lake" |}.

(** A vendor whose only result has the empty string as URI. *)
Definition blank_uri_world : GeminiService.World :=
  {| GeminiService.env_API_KEY := Some "KEY";
     GeminiService.generateVideos := λ _ _,
       Fulfilled (Scenario.finished_operation
                    [{| video := Some {| uri := Some EmptyString |} |}]);
     GeminiService.getVideosOperation := λ _ _ _, Fulfilled Scenario.pending_operation;
     GeminiService.fetch := λ _, Fulfilled (Response.mk true "OK" Scenario.lake_bytes);
     GeminiService.blob := λ response, Fulfilled (Response.body response);
     GeminiService.createObjectURL := λ _, "blob:lake" |}.

(** [Scenario.lake_world] without a key in the environment. *)
Definition keyless_world : GeminiService.World :=
  {| GeminiService.env_API_KEY := None;
     GeminiService.generateVideos := λ _ _, Fulfilled Scenario.pending_operation;
     GeminiService.getVideosOperation := λ _ _ _, Fulfilled Scenario.pending_operation;
     GeminiService.fetch := λ _, Fulfilled (Response.mk true "OK" Scenario.lake_bytes);
     GeminiService.blob := λ response, Fulfilled (Response.body response);
     GeminiService.createObjectURL := λ _, "blob:lake" |}.

(** A vendor that is done at once, with a video whose URI has no query. *)
Definition plain_video : GeneratedVideo :=
  {| video := Some {| uri := Some "https://videos.example/lake.mp4" |} |}.

Definition plain_world : GeminiService.World :=
  {| GeminiService.env_API_KEY := Some "KEY";
     GeminiService.generateVideos := λ _ _,
       Fulfilled (Scenario.finished_operation [plain_video]);
     GeminiService.getVideosOperation := λ _ _ _, Fulfilled Scenario.pending_operation;
     GeminiService.fetch := λ _, Fulfilled (Response.mk true "OK" Scenario.lake_bytes);
     GeminiService.blob := λ response, Fulfilled (Response.body response);
     GeminiService.createObjectURL := λ _, "blob:lake" |}.



(** The store after mount and a successful key check. *)
Definition ready : App.State :=
  App.checkApiKey (Some Scenario.studio) None (App.initial 0).

(** The input component holding a picked PNG and a prompt. *)
Definition with_picture : ChatInput.State :=
  {| ChatInput.text := "make it move";
     ChatInput.selectedImage :=
       Some {| ChatInput.base64 := Some "iVBORw0KGgo=";
               ChatInput.mimeType := "image/png";
               ChatInput.preview := "data:image/png;base64,iVBORw0KGgo=" |};
     ChatInput.showSettings := false;
     ChatInput.config := Scenario.landscape_720p |}.

End Scenario2.

(** ** More about sessions *)

Module Sessions.
Import Types App.

(** The messages an event appends to the list: the two of a submission that
    gets past the guard, none otherwise. *)
Definition appended (e : Event) (s : Session) : list Message.t :=
  match e with
  | Send text imageBase64 mimeType config clock =>
      if apiKeySet (app s)
      then [newUserMessage text imageBase64 clock; newAgentMessage clock]
      else []
  | _ => []
  end.

(** The role the layout of the list gives to each position: the welcome
    message and every placeholder are the agent's, the messages between them
    the user's. *)
Definition role_at (i : nat) : Role := if Nat.even i then agent else user.

(** Sessions in which the clock moves on: no reading of a submission that
    gets past the guard is earlier than a reading before it, and line 64 of
    each reads a later millisecond than the one line 73 of the one before was
    given an id for.  [last] is the largest number an id was made of so far. *)
Fixpoint spaced (last : Z) (events : list Event) (s : Session) : Prop :=
  match events with
  | [] => True
  | e :: events =>
      match e with
      | Send _ _ _ _ clock =>
          if apiKeySet (app s) then
            (last < now_64 clock ≤ now_73 clock)%Z ∧
            spaced (now_73 clock + 1) events (step e s)
          else spaced last events (step e s)
      | _ => spaced last events (step e s)
      end
  end.

(** The ids in the list: the one of the welcome message, then numbers that
    are pairwise different and none above [last]. *)
Definition ids_below (last : Z) (s : Session) : Prop :=
  ∃ nums : list Z,
    Message.id <$> messages (app s) = "welcome" :: (Js.toString <$> nums) ∧
    NoDup nums ∧ Forall (λ n, n ≤ last)%Z nums.

(** Code units of decimal digits. *)
Definition is_digit (c : Ascii.ascii) : bool :=
  let n := Ascii.nat_of_ascii c in Nat.leb 48 n && Nat.leb n 57.

Fixpoint all_digits (s : string) : bool :=
  match s with
  | EmptyString => true
  | String c s' => is_digit c && all_digits s'
  end.

(** Texts made of white space only (the empty text among them): one
    character of white space after the other, each of one, two or three
    bytes. *)
Fixpoint blank (s : string) : bool :=
  match s with
  | EmptyString => true
  | String c1 s1 =>
      if JsString.isWhiteSpace1 c1 then blank s1
      else
        match s1 with
        | EmptyString => false
        | String c2 s2 =>
            if JsString.isWhiteSpace2 c1 c2 then blank s2
            else
              match s2 with
              | EmptyString => false
              | String c3 s3 => JsString.isWhiteSpace3 c1 c2 c3 && blank s3
              end
        end
  end.

(** Does the byte [c] occur in [s]? *)
Fixpoint has_unit (c : Ascii.ascii) (s : string) : bool :=
  match s with
  | EmptyString => false
  | String c' s' => Ascii.eqb c' c || has_unit c s'
  end.

(** The selected image, if any, has an image type. *)
Definition typed (st : ChatInput.State) : Prop :=
  ∀ image, ChatInput.selectedImage st = Some image →
           JsString.startsWith (ChatInput.mimeType image) "image/" = true.

(** The continuation of a call has run. *)
Definition has_run (c : string * bool) : Prop := snd c = true.

(** At most the call made last is in flight, and it is exactly while the
    processing flag is set; its placeholder is then the last message. *)
Definition one_in_flight (s : Session) : Prop :=
  if isProcessing (app s) then
    ∃ front a msg,
      calls s = front ++ [(a, false)] ∧ Forall has_run front ∧
      last (messages (app s)) = Some msg ∧
      Message.id msg = a ∧ Message.status msg = Some generating
  else Forall has_run (calls s).

(** The fields of a message fit its status. *)
Definition consistent (msg : Message.t) : Prop :=
  match Message.status msg with
  | Some error => ∃ t, Message.error msg = Some t ∧ Js.truthy t = true
  | Some complete => ∃ url, Message.videoUrl msg = Some url
  | Some generating =>
      Message.text msg = None ∧ Message.videoUrl msg = None ∧
      Message.error msg = None
  | Some pending => False
  | None => Message.videoUrl msg = None ∧ Message.error msg = None
  end.

End Sessions.

(** * Properties *)

(** ** JavaScript primitives *)

Module JsFacts.

Lemma append_cons a (p r : string) : String a p +:+ r = String a (p +:+ r).
Proof. reflexivity. Qed.

Lemma prefix_app (p s : string) :
  String.prefix p s = true ↔ ∃ rest, s = p +:+ rest.
Proof.
  revert s. induction p as [|a p IH]; intros s.
  - split; [intros _; by exists s | by destruct s].
  - destruct s as [|b s]; simpl.
    + split; [done | intros [rest ?]; discriminate].
    + destruct (Ascii.ascii_dec a b) as [->|Hne].
      * rewrite IH. split; intros [rest H]; exists rest.
        -- by rewrite append_cons, H.
        -- rewrite append_cons in H. by injection H.
      * split; [done | intros [rest H]].
        rewrite append_cons in H. congruence.
Qed.

(** [includes] finds exactly the strings that have [searchString] as a
    contiguous part. *)
Lemma includes_spec (s searchString : string) :
  Js.includes s searchString = true ↔
  ∃ before after, s = before +:+ searchString +:+ after.
Proof.
  induction s as [|a s IH].
  - change (Js.includes "" searchString)
      with (String.prefix searchString "" || false).
    rewrite orb_false_r, prefix_app. split.
    + intros [rest H]. by exists "", rest.
    + intros [before [after H]].
      destruct before; [by exists after | discriminate].
  - change (Js.includes (String a s) searchString)
      with (String.prefix searchString (String a s) || Js.includes s searchString).
    rewrite orb_true_iff, prefix_app, IH. split.
    + intros [[rest H] | (before & after & H)].
      * by exists "", rest.
      * exists (String a before), after. by rewrite append_cons, H.
    + intros [before [after H]]. destruct before.
      * left. by exists after.
      * right. rewrite append_cons in H. injection H as _ H.
        by exists before, after.
Qed.

Lemma toString_inj (m n : Z) : Js.toString m = Js.toString n → m = n.
Proof. apply pretty_Z_inj. Qed.

End JsFacts.

(** ** The generation client *)

Module GeminiServiceFacts.
Import Types Vendor GeminiService Trace.

Lemma status_calls_in_app (l1 l2 : list Call) :
  status_calls_in (l1 ++ l2) = status_calls_in l1 + status_calls_in l2.
Proof.
  induction l1 as [|[] l1 IH]; simpl; auto.
Qed.

Lemma logged_nil s : logged s [] = s.
Proof.
  destruct s. unfold logged. simpl. by rewrite app_nil_r, Nat.add_0_r.
Qed.

Lemma logged_app s (l1 l2 : list Call) :
  logged (logged s l1) l2 = logged s (l1 ++ l2).
Proof.
  unfold logged. simpl. by rewrite status_calls_in_app, app_assoc, Nat.add_assoc.
Qed.

Section Runs.
Variable w : World.

(** One round of the loop on a handle that does not report completion. *)
Lemma poll_round c fuel operation s :
  Js.truthy_flag (Operation.done operation) = false →
  poll w c (S fuel) operation s =
  let s' := logged s [CallWait 5000; CallGetVideosOperation operation] in
  match getVideosOperation w c (statusCalls s) operation with
  | Rejected r => (Throw (Rejection AwaitGetVideosOperation r), s')
  | Fulfilled operation' =>
      match Operation.error operation' with
      | Some err =>
          (Throw (NewError PollingOperationError (operation_error_message err)), s')
      | None => poll w c fuel operation' s'
      end
  end.
Proof.
  intros Hdone. simpl. rewrite Hdone. simpl.
  unfold bind, wait, operations_getVideosOperation, bind, record, next_status_call.
  simpl. unfold logged. simpl.
  rewrite <- app_assoc, Nat.add_1_r. simpl.
  destruct (getVideosOperation w c (statusCalls s) operation) as [operation'|r];
    simpl; [|done].
  by destruct (Operation.error operation').
Qed.

Lemma poll_done c fuel operation s :
  Js.truthy_flag (Operation.done operation) = true →
  poll w c fuel operation s = (Normal operation, s).
Proof.
  intros Hdone. destruct fuel; simpl; by rewrite Hdone.
Qed.

Lemma poll_out_of_fuel c operation s :
  Js.truthy_flag (Operation.done operation) = false →
  poll w c 0 operation s = (Unsettled, s).
Proof.
  intros Hdone. simpl. by rewrite Hdone.
Qed.

(** Every run of [poll] is a [PollRun]. *)
Lemma poll_sound c fuel operation s :
  ∃ calls,
    snd (poll w c fuel operation s) = logged s calls ∧
    PollRun w c (statusCalls s) operation calls (fst (poll w c fuel operation s)).
Proof.
  revert operation s. induction fuel as [|fuel IH]; intros operation s;
    destruct (Js.truthy_flag (Operation.done operation)) eqn:Hdone.
  - rewrite poll_done by done. exists []. rewrite logged_nil. split; [done|].
    by constructor.
  - rewrite poll_out_of_fuel by done. exists []. rewrite logged_nil.
    split; [done|]. by constructor.
  - rewrite poll_done by done. exists []. rewrite logged_nil. split; [done|].
    by constructor.
  - rewrite poll_round by done. cbv zeta.
    destruct (getVideosOperation w c (statusCalls s) operation)
      as [operation'|r] eqn:Hanswer.
    + destruct (Operation.error operation') as [err|] eqn:Herr.
      * eexists. split; [done|]. by eapply PollRun_error.
      * destruct (IH operation'
          (logged s [CallWait 5000; CallGetVideosOperation operation]))
          as (calls & Hs & Hrun).
        exists (CallWait 5000 :: CallGetVideosOperation operation :: calls).
        split.
        -- rewrite Hs, logged_app. done.
        -- eapply PollRun_again; eauto.
           simpl in Hrun. by rewrite Nat.add_1_r in Hrun.
    + eexists. split; [done|]. by eapply PollRun_rejected.
Qed.

(** The model gives up on a loop only after following it for [fuel] rounds. *)
Lemma poll_unsettled c fuel operation s :
  fst (poll w c fuel operation s) = Unsettled →
  statusCalls (snd (poll w c fuel operation s)) = statusCalls s + fuel.
Proof.
  revert operation s. induction fuel as [|fuel IH]; intros operation s;
    destruct (Js.truthy_flag (Operation.done operation)) eqn:Hdone;
    try (rewrite poll_done by done; done).
  - rewrite poll_out_of_fuel by done. simpl. lia.
  - rewrite poll_round by done. cbv zeta.
    destruct (getVideosOperation w c (statusCalls s) operation)
      as [operation'|r]; [|done].
    destruct (Operation.error operation'); [done|].
    intros Hunsettled. rewrite IH by done. simpl. lia.
Qed.

(** The loop leaves as soon as the vendor stops answering "not done". *)
Lemma poll_settles c N fuel operation s :
  done_from w c N →
  N < statusCalls s + fuel →
  (N < statusCalls s → Js.truthy_flag (Operation.done operation) = true) →
  fst (poll w c fuel operation s) ≠ Unsettled.
Proof.
  intros Hvendor. revert operation s.
  induction fuel as [|fuel IH]; intros operation s Hfuel Hop;
    destruct (Js.truthy_flag (Operation.done operation)) eqn:Hdone;
    try (rewrite poll_done by done; done).
  - rewrite Nat.add_0_r in Hfuel. by specialize (Hop Hfuel).
  - rewrite poll_round by done. cbv zeta.
    destruct (getVideosOperation w c (statusCalls s) operation)
      as [operation'|r] eqn:Hanswer; [|done].
    destruct (Operation.error operation') as [err|] eqn:Herr; [done|].
    apply IH; simpl.
    + lia.
    + intros Hlt. eapply Hvendor; [|done..]. lia.
Qed.

Ltac state_eq :=
  unfold logged; simpl;
  rewrite <- ?app_assoc, ?app_nil_r, ?Nat.add_0_r; simpl; try reflexivity.

Lemma download_sound url s :
  let run :=
    (do! record (CallFetch url) in
     let! response := await AwaitFetch (fetch w url) in
     if negb (Response.ok response) then
       throw (NewError DownloadFailed
                ("Failed to download video: " +:+ Response.statusText response))
     else
       do! record (CallBlob response) in
       let! b := await AwaitBlob (blob w response) in
       do! record (CallCreateObjectURL b) in
       ret (createObjectURL w b)) s in
  ∃ calls, snd run = logged s calls ∧ Download w url calls (fst run).
Proof.
  unfold bind, record, await. simpl.
  destruct (fetch w url) as [response|r] eqn:Hfetch; simpl.
  - destruct (Response.ok response) eqn:Hok; simpl.
    + destruct (blob w response) as [b|r] eqn:Hblob; simpl.
      * exists [CallFetch url; CallBlob response; CallCreateObjectURL b].
        split; [state_eq | by constructor].
      * exists [CallFetch url; CallBlob response].
        split; [state_eq | by constructor].
    + exists [CallFetch url]. split; [state_eq | by constructor].
  - exists [CallFetch url]. split; [state_eq | by constructor].
Qed.

(** Every run of [deliver] is a [Delivery]. *)
Lemma deliver_sound operation s :
  ∃ calls,
    snd (deliver w operation s) = logged s calls ∧
    Delivery w operation calls (fst (deliver w operation s)).
Proof.
  unfold deliver.
  destruct (Operation.error operation) as [err|] eqn:Herr.
  { exists []. rewrite logged_nil. split; [done | by constructor]. }
  destruct (response_generatedVideos operation) as [[|first rest]|] eqn:Hvideos.
  - exists []. rewrite logged_nil. split; [done | constructor; auto].
  - destruct (video_uri first) as [videoUri|] eqn:Huri.
    + destruct (Js.truthy videoUri) eqn:Htruthy; simpl.
      * destruct (download_sound (downloadUrl videoUri (env_API_KEY w)) s)
          as (calls & Hs & Hrun).
        exists calls. split; [exact Hs|].
        eapply Delivery_download; eauto.
      * exists []. rewrite logged_nil. split; [done|].
        eapply Delivery_no_uri; eauto. by rewrite Huri.
    + exists []. rewrite logged_nil. split; [done|].
      eapply Delivery_no_uri; eauto. by rewrite Huri.
  - exists []. rewrite logged_nil. split; [done | constructor; auto].
Qed.

(** With a usable key, a call is the submission, the loop and the part after
    the loop, run in the state that holds the new client. *)
Lemma generateVideo_with_key fuel request s key :
  env_API_KEY w = Some key → Js.truthy key = true →
  generateVideo w fuel request s =
  let c := {| apiKey := key |} in
  let s1 := logged {| ai := Some c; log := log s; statusCalls := statusCalls s |}
              [CallGenerateVideos (payload request)] in
  match generateVideos w c (payload request) with
  | Rejected r => (Throw (Rejection AwaitGenerateVideos r), s1)
  | Fulfilled operation =>
      match poll w c fuel operation s1 with
      | (Normal final, s2) => deliver w final s2
      | (Throw e, s2) => (Throw e, s2)
      | (Unsettled, s2) => (Unsettled, s2)
      end
  end.
Proof.
  intros Hkey Htruthy.
  unfold generateVideo, ensureInitialized, bind, get_ai, set_ai, try_catch,
    models_generateVideos, bind, record, await.
  rewrite Hkey. simpl. rewrite Htruthy. simpl.
  unfold logged. simpl. rewrite Nat.add_0_r.
  destruct (generateVideos w {| apiKey := key |} (payload request))
    as [operation|r]; simpl; [|done].
  match goal with |- context [poll w ?c fuel operation ?s1] =>
    destruct (poll w c fuel operation s1) as [[final|e|] s2] end; simpl; try done.
  unfold throw. by destruct (deliver w final s2) as [[url|e|] s3].
Qed.

Lemma generateVideo_without_key fuel request s :
  Js.truthy_opt (env_API_KEY w) = false →
  generateVideo w fuel request s =
  (Throw (NewError ApiKeyNotFound "API Key not found. Please select a key."), s).
Proof.
  intros Hkey. unfold generateVideo, ensureInitialized, bind.
  destruct (env_API_KEY w) as [key|]; [|done].
  simpl in Hkey. by rewrite Hkey.
Qed.

(** What a call does never depends on what the [ai] field held before:
    [ensureInitialized] overwrites it. *)
Lemma generateVideo_ai_irrelevant fuel request a a' :
  fst (generateVideo w fuel request (start a)) =
  fst (generateVideo w fuel request (start a')).
Proof.
  destruct (Js.truthy_opt (env_API_KEY w)) eqn:Htruthy.
  2: { by rewrite !generateVideo_without_key. }
  destruct (env_API_KEY w) as [key|] eqn:Hkey; [|done]. simpl in Htruthy.
  by rewrite !(generateVideo_with_key _ _ _ key).
Qed.

(** Every run of [generateVideo] is a [Run]. *)
Lemma generateVideo_sound fuel request s :
  ∃ calls,
    log (snd (generateVideo w fuel request s)) = log s ++ calls ∧
    Run w request (statusCalls s) calls (fst (generateVideo w fuel request s)).
Proof.
  destruct (Js.truthy_opt (env_API_KEY w)) eqn:Htruthy.
  2: { rewrite generateVideo_without_key by done. exists [].
       rewrite app_nil_r. split; [done | by constructor]. }
  destruct (env_API_KEY w) as [key|] eqn:Hkey; [|done]. simpl in Htruthy.
  rewrite (generateVideo_with_key _ _ _ key) by done. cbv zeta.
  set (c := {| apiKey := key |}).
  set (s1 := logged _ _).
  destruct (generateVideos w c (payload request)) as [operation|r] eqn:Hsubmit.
  2: { eexists. split; [done|]. by eapply Run_submit_rejected. }
  destruct (poll_sound c fuel operation s1) as (calls & Hs2 & Hpoll).
  destruct (poll w c fuel operation s1) as [[final|e|] s2]; simpl in *; subst s2.
  - destruct (deliver_sound final (logged s1 calls)) as (calls' & Hs3 & Hdeliver).
    rewrite Hs3. exists (CallGenerateVideos (payload request) :: calls ++ calls').
    split.
    + simpl. by rewrite <- !app_assoc.
    + eapply Run_delivery; eauto. by rewrite Nat.add_0_r in Hpoll.
  - exists (CallGenerateVideos (payload request) :: calls). split.
    + simpl. by rewrite <- !app_assoc.
    + eapply Run_poll_throws; eauto. by rewrite Nat.add_0_r in Hpoll.
  - exists (CallGenerateVideos (payload request) :: calls). split.
    + simpl. by rewrite <- !app_assoc.
    + eapply Run_polling; eauto. by rewrite Nat.add_0_r in Hpoll.
Qed.

End Runs.

Section Relations.
Variable w : World.

Lemma PollRun_normal_done c n operation calls final :
  PollRun w c n operation calls (Normal final) →
  Js.truthy_flag (Operation.done final) = true.
Proof.
  intros Hrun. remember (Normal final) as result eqn:Hresult.
  induction Hrun; try discriminate; [congruence | auto].
Qed.

Lemma PollRun_throws c n operation calls e :
  PollRun w c n operation calls (Throw e) →
  (∃ r, e = Rejection AwaitGetVideosOperation r ∧
        rejects w AwaitGetVideosOperation r) ∨
  (∃ err, e = NewError PollingOperationError (operation_error_message err)).
Proof.
  intros Hrun. remember (Throw e) as result eqn:Hresult.
  induction Hrun; try discriminate; [| |auto].
  - left. exists r. split; [congruence|]. simpl. eauto.
  - right. exists err. congruence.
Qed.

(** Calls of the loop come in pairs: a wait of 5000 ms, then a status call. *)
Lemma PollRun_calls c n operation calls result :
  PollRun w c n operation calls result →
  ∀ i operation', calls !! i = Some (CallGetVideosOperation operation') →
    ∃ j, i = S j ∧ calls !! j = Some (CallWait 5000).
Proof.
  induction 1 as [| | | |n operation operation' calls r Hdone Hanswer Herr Hrun IH];
    intros i h Hi.
  1-2: by rewrite lookup_nil in Hi.
  1-2: destruct i as [|[|i]]; try done; by exists 0.
  destruct i as [|[|i]]; try done; [by exists 0|].
  destruct (IH i h Hi) as (j & -> & Hj). by exists (S (S j)).
Qed.

(** A status answer that carries an error ends the loop on the spot. *)
Lemma PollRun_error_stops c n operation calls result :
  PollRun w c n operation calls result →
  ∀ before h after answer err,
    calls = before ++ CallGetVideosOperation h :: after →
    getVideosOperation w c (n + status_calls_in before) h = Fulfilled answer →
    Operation.error answer = Some err →
    after = [] ∧
    result = Throw (NewError PollingOperationError (operation_error_message err)).
Proof.
  induction 1 as
    [ n operation Hdone
    | n operation Hdone
    | n operation r Hdone Hanswer
    | n operation operation' err Hdone Hanswer Herr
    | n operation operation' calls r Hdone Hanswer Herr Hrun IH ];
    intros before h after answer err' Hcalls Hh Herr'.
  1-2: by destruct before.
  - destruct before as [|x [|y before]]; simplify_eq/=.
    + rewrite Nat.add_0_r in Hh. congruence.
    + by destruct before.
  - destruct before as [|x [|y before]]; simplify_eq/=.
    + rewrite Nat.add_0_r, Hanswer in Hh. by simplify_eq.
    + by destruct before.
  - destruct before as [|x [|y before]]; simplify_eq/=.
    + rewrite Nat.add_0_r in Hh. congruence.
    + eapply IH; eauto. by rewrite Nat.add_succ_r in Hh.
Qed.

Lemma Download_no_status url calls result :
  Download w url calls result → status_calls_in calls = 0.
Proof. by destruct 1. Qed.

Lemma Delivery_no_status operation calls result :
  Delivery w operation calls result → status_calls_in calls = 0.
Proof.
  destruct 1; try done. by eapply Download_no_status.
Qed.




Lemma Delivery_settled operation calls result :
  Delivery w operation calls result → result ≠ Unsettled.
Proof.
  destruct 1 as [| | |first rest videoUri calls result ???? []]; done.
Qed.

Lemma Delivery_fetches operation calls result url :
  Delivery w operation calls result →
  CallFetch url ∈ calls →
  ∃ first rest videoUri,
    response_generatedVideos operation = Some (first :: rest) ∧
    video_uri first = Some videoUri ∧
    Js.truthy videoUri = true ∧
    url = downloadUrl videoUri (env_API_KEY w).
Proof.
  destruct 1 as [| | |first rest videoUri calls result ? ? ? ? Hdownload];
    intros Hin; try by apply elem_of_nil in Hin.
  exists first, rest, videoUri. repeat split; try done.
  destruct Hdownload;
    repeat (apply elem_of_cons in Hin as [Hin|Hin]; [by simplify_eq|]);
    by apply elem_of_nil in Hin.
Qed.

Lemma PollRun_no_fetch c n operation calls result url :
  PollRun w c n operation calls result → CallFetch url ∉ calls.
Proof.
  induction 1; intros Hin;
    repeat (apply elem_of_cons in Hin as [Hin|Hin]; [done|]);
    try by apply elem_of_nil in Hin.
  done.
Qed.

End Relations.

(** * The claims about the generation client *)


(** C2. If the answer to a status call carries an error, the call of
    [generateVideo] fails with an error made from it (its message, or "Unknown
    error during video generation" when it has none) and that status call is
    the last call the client issues: no further status call, no download. *)
Theorem status_error_fails_immediately (w : World) (a : option GoogleGenAI)
    (fuel : nat) (request : GenerationRequest.t) (key : string)
    (before after : list Call) (operation answer : Operation.t)
    (err : OperationError) :
  env_API_KEY w = Some key →
  log (snd (generateVideo w fuel request (start a))) =
    before ++ CallGetVideosOperation operation :: after →
  getVideosOperation w {| apiKey := key |} (status_calls_in before) operation =
    Fulfilled answer →
  Operation.error answer = Some err →
  fst (generateVideo w fuel request (start a)) =
    Throw (NewError PollingOperationError (operation_error_message err)) ∧
  after = [].
Proof.
  intros Hkey Hlog Hanswer Herr.
  destruct (generateVideo_sound w fuel request (start a)) as (calls & Hcalls & Hrun).
  simpl in Hcalls. rewrite Hcalls in Hlog. clear Hcalls.
  destruct Hrun as
    [ Hnokey
    | key' r Hkey' Htruthy Hsubmit
    | key' submitted calls e Hkey' Htruthy Hsubmit Hpoll
    | key' submitted calls Hkey' Htruthy Hsubmit Hpoll
    | key' submitted calls final calls' result Hkey' Htruthy Hsubmit Hpoll Hdelivery ];
    try (rewrite Hkey in Hkey'; simplify_eq).
  - by destruct before.
  - destruct before as [|x [|y before]]; simplify_eq/=.
  - destruct before as [|x before]; simplify_eq/=.
    destruct (PollRun_error_stops w _ _ _ _ _ Hpoll
                before operation after answer err eq_refl Hanswer Herr)
      as [Hafter Hresult].
    by simplify_eq.
  - destruct before as [|x before]; simplify_eq/=.
    by destruct (PollRun_error_stops w _ _ _ _ _ Hpoll
                   before operation after answer err eq_refl Hanswer Herr)
      as [_ ?].
  - destruct before as [|x before]; simplify_eq/=.
    match goal with H : _ ++ _ = _ ++ _ :: _ |- _ =>
      apply app_eq_app in H as [l [[-> Hl]|[-> Hl]]] end.
    + destruct l as [|y l]; simpl in Hl.
      * apply Delivery_no_status in Hdelivery. by rewrite <- Hl in Hdelivery.
      * simplify_eq.
        by destruct (PollRun_error_stops w _ _ _ _ _ Hpoll
                       before operation l answer err eq_refl Hanswer Herr)
          as [_ ?].
    + apply Delivery_no_status in Hdelivery.
      rewrite Hl, status_calls_in_app in Hdelivery. simpl in Hdelivery. lia.
Qed.

(** C3. When the loop is left with a handle that reports completion without
    an error, but whose generated-video list is absent or empty, or whose
    first result has no URI, the call fails with a missing-payload error; it
    awaits nothing after the loop (no download, no object URL). *)
Theorem completed_without_payload_fails (w : World) (a : option GoogleGenAI)
    (fuel : nat) (request : GenerationRequest.t) (key : string)
    (submitted final : Operation.t) (s2 : State) :
  env_API_KEY w = Some key → Js.truthy key = true →
  generateVideos w {| apiKey := key |} (payload request) = Fulfilled submitted →
  poll w {| apiKey := key |} fuel submitted
    (logged (start (Some {| apiKey := key |})) [CallGenerateVideos (payload request)])
    = (Normal final, s2) →
  Operation.error final = None →
  (response_generatedVideos final = None ∨
   response_generatedVideos final = Some [] ∨
   ∃ first rest, response_generatedVideos final = Some (first :: rest) ∧
                 video_uri first = None) →
  Js.truthy_flag (Operation.done final) = true ∧
  ∃ site message,
    generateVideo w fuel request (start a) = (Throw (NewError site message), s2) ∧
    kind_of site = Some MissingPayloadError.
Proof.
  intros Hkey Htruthy Hsubmit Hpoll Herr Hmissing. split.
  - pose proof (poll_sound w {| apiKey := key |} fuel submitted
      (logged (start (Some {| apiKey := key |})) [CallGenerateVideos (payload request)]))
      as (calls & _ & Hrun).
    rewrite Hpoll in Hrun. by eapply PollRun_normal_done.
  - rewrite (generateVideo_with_key w _ _ _ key) by done. cbv zeta.
    rewrite Hsubmit.
    change (logged {| ai := _; log := log (start a); statusCalls := _ |} _)
      with (logged (start (Some {| apiKey := key |}))
              [CallGenerateVideos (payload request)]).
    rewrite Hpoll. unfold deliver. rewrite Herr.
    destruct Hmissing as [->|[->|(first & rest & -> & ->)]];
      by eexists _, _.
Qed.

Lemma logged_rounds_cons s operation polled calls :
  logged (logged s [CallWait 5000; CallGetVideosOperation operation])
    (rounds polled ++ calls) =
  logged s (rounds (operation :: polled) ++ calls).
Proof. by rewrite logged_app. Qed.

(** The loop, round by round: the handles it was handed, and the three ways
    it can stand after them. *)
Lemma poll_rounds (w : World) (c : GoogleGenAI) (fuel : nat)
    (operation : Operation.t) (s : State) :
  ∃ polled current,
    handed_on w c (statusCalls s) operation polled current ∧
    Forall (λ h, Js.truthy_flag (Operation.done h) = false) polled ∧
    ((Js.truthy_flag (Operation.done current) = true ∧
      poll w c fuel operation s = (Normal current, logged s (rounds polled ++ []))) ∨
     (Js.truthy_flag (Operation.done current) = false ∧
      ((∃ r,
          getVideosOperation w c (statusCalls s + length polled) current
            = Rejected r ∧
          poll w c fuel operation s =
            (Throw (Rejection AwaitGetVideosOperation r),
             logged s (rounds polled ++
                       [CallWait 5000; CallGetVideosOperation current]))) ∨
       (∃ answer err,
          getVideosOperation w c (statusCalls s + length polled) current
            = Fulfilled answer ∧
          Operation.error answer = Some err ∧
          poll w c fuel operation s =
            (Throw (NewError PollingOperationError (operation_error_message err)),
             logged s (rounds polled ++
                       [CallWait 5000; CallGetVideosOperation current]))))) ∨
     (Js.truthy_flag (Operation.done current) = false ∧
      length polled = fuel ∧
      poll w c fuel operation s = (Unsettled, logged s (rounds polled ++ [])))).
Proof.
  revert operation s. induction fuel as [|fuel IH]; intros operation s;
    destruct (Js.truthy_flag (Operation.done operation)) eqn:Hdone.
  - exists [], operation. repeat split; [constructor|]. left.
    by rewrite poll_done, logged_nil.
  - exists [], operation. repeat split; [constructor|]. right. right.
    by rewrite poll_out_of_fuel, logged_nil.
  - exists [], operation. repeat split; [constructor|]. left.
    by rewrite poll_done, logged_nil.
  - rewrite poll_round by done. cbv zeta.
    destruct (getVideosOperation w c (statusCalls s) operation)
      as [answer|r] eqn:Hanswer.
    2: { exists [], operation. repeat split; [constructor|]. right. left.
         split; [done|]. left. exists r. simpl. by rewrite Nat.add_0_r. }
    destruct (Operation.error answer) as [err|] eqn:Herr.
    { exists [], operation. repeat split; [constructor|]. right. left.
      split; [done|]. right. exists answer, err. simpl. by rewrite Nat.add_0_r. }
    destruct (IH answer
                (logged s [CallWait 5000; CallGetVideosOperation operation]))
      as (polled & current & Hhanded & Hnotdone & Hcases).
    assert (statusCalls
              (logged s [CallWait 5000; CallGetVideosOperation operation])
            = S (statusCalls s)) as Hcount by (simpl; lia).
    rewrite Hcount in Hhanded, Hcases.
    exists (operation :: polled), current. split; [|split].
    + simpl. split; [done|]. by exists answer.
    + by constructor.
    + rewrite <- !logged_rounds_cons.
      replace (statusCalls s + length (operation :: polled))
        with (S (statusCalls s) + length polled) by (simpl; lia).
      destruct Hcases as [Hleft|[Hfailed|(Hstill & Hlen & Hpoll)]];
        [by left | by right; left |].
      right. right. simpl. by rewrite Hlen.
Qed.

(** C4. A call of [generateVideo] whose submission is answered with a handle
    goes round the loop on the handles it is handed: each round is made on a
    handle that does not report completion, waits 5000 ms, issues the status
    call with that handle, and takes the answer as the next handle.  The
    call stands in one of three ways.  The handle held reports completion:
    then, and only then, the part after the loop (error check, extraction,
    download) runs, on that handle.  Or the handle held does not report
    completion and its status call was rejected or answered with an error:
    the call fails with that, right after the status call.  Or the handle
    held does not report completion and the call is still in the loop (the
    rounds followed are used up): nothing of the part after the loop has
    happened. *)
Theorem poll_loop_contract (w : World) (a : option GoogleGenAI) (fuel : nat)
    (request : GenerationRequest.t) (key : string) (submitted : Operation.t) :
  env_API_KEY w = Some key → Js.truthy key = true →
  generateVideos w {| apiKey := key |} (payload request) = Fulfilled submitted →
  let c := {| apiKey := key |} in
  let run := generateVideo w fuel request (start a) in
  ∃ polled current,
    handed_on w c 0 submitted polled current ∧
    Forall (λ h, Js.truthy_flag (Operation.done h) = false) polled ∧
    let in_loop := CallGenerateVideos (payload request) :: rounds polled in
    ((Js.truthy_flag (Operation.done current) = true ∧
      run = deliver w current (logged (start (Some c)) in_loop)) ∨
     (Js.truthy_flag (Operation.done current) = false ∧
      ((∃ r,
          getVideosOperation w c (length polled) current = Rejected r ∧
          run = (Throw (Rejection AwaitGetVideosOperation r),
                 logged (start (Some c))
                   (in_loop ++ [CallWait 5000; CallGetVideosOperation current]))) ∨
       (∃ answer err,
          getVideosOperation w c (length polled) current = Fulfilled answer ∧
          Operation.error answer = Some err ∧
          run = (Throw (NewError PollingOperationError
                          (operation_error_message err)),
                 logged (start (Some c))
                   (in_loop ++ [CallWait 5000; CallGetVideosOperation current]))))) ∨
     (Js.truthy_flag (Operation.done current) = false ∧
      length polled = fuel ∧
      run = (Unsettled, logged (start (Some c)) in_loop))).
Proof.
  intros Hkey Htruthy Hsubmit. cbv zeta.
  rewrite (generateVideo_with_key w _ _ _ key) by done. cbv zeta.
  rewrite Hsubmit.
  change (logged {| ai := _; log := log (start a); statusCalls := _ |} _)
    with (logged (start (Some {| apiKey := key |}))
            [CallGenerateVideos (payload request)]).
  destruct (poll_rounds w {| apiKey := key |} fuel submitted
              (logged (start (Some {| apiKey := key |}))
                 [CallGenerateVideos (payload request)]))
    as (polled & current & Hhanded & Hnotdone & Hcases).
  exists polled, current. split; [exact Hhanded|]. split; [exact Hnotdone|].
  rewrite !logged_app in Hcases. simpl in Hcases. rewrite app_nil_r in Hcases.
  destruct Hcases as [[Hdone ->]
                     |[[Hdone [(r & Hr & ->)|(answer & err & Hanswer & Herr & ->)]]
                      |(Hdone & Hlen & ->)]].
  - by left.
  - right. left. split; [done|]. left. by exists r.
  - right. left. split; [done|]. right. by exists answer, err.
  - by right; right.
Qed.

Lemma Download_starts_with_fetch (w : World) (url : string) (calls : list Call)
    (result : Completion string) :
  Download w url calls result →
  ∃ after, calls = CallFetch url :: after ∧ ∀ url', CallFetch url' ∉ after.
Proof.
  destruct 1; eexists; (split; [reflexivity|]); intros url' Hin;
    repeat (apply elem_of_cons in Hin as [Hin|Hin]; [done|]);
    by apply elem_of_nil in Hin.
Qed.

(** C5. When the loop is left with a handle whose first generated video has a
    URI, the call fetches, right after the loop, the URL made of that URI
    and the API key of the environment as a query parameter: the URI followed
    by [&key=] and the key when the URI already contains a [?], the URI
    followed by [?key=] and the key when it does not.  That is the only URL
    the call fetches. *)
Theorem download_url_appends_key (w : World) (a : option GoogleGenAI)
    (fuel : nat) (request : GenerationRequest.t) (key : string)
    (submitted final : Operation.t) (s2 : State)
    (first : GeneratedVideo) (rest : list GeneratedVideo) (videoUri : string) :
  env_API_KEY w = Some key → Js.truthy key = true →
  generateVideos w {| apiKey := key |} (payload request) = Fulfilled submitted →
  poll w {| apiKey := key |} fuel submitted
    (logged (start (Some {| apiKey := key |})) [CallGenerateVideos (payload request)])
    = (Normal final, s2) →
  Operation.error final = None →
  response_generatedVideos final = Some (first :: rest) →
  video_uri first = Some videoUri → Js.truthy videoUri = true →
  let run := generateVideo w fuel request (start a) in
  ∃ url after,
    (((∃ before query, videoUri = before +:+ "?" +:+ query) ∧
      url = videoUri +:+ "&key=" +:+ key) ∨
     ((¬ ∃ before query, videoUri = before +:+ "?" +:+ query) ∧
      url = videoUri +:+ "?key=" +:+ key)) ∧
    log (snd run) = log s2 ++ CallFetch url :: after ∧
    (∀ url', CallFetch url' ∈ log (snd run) → url' = url).
Proof.
  intros Hkey Htruthy Hsubmit Hpoll Herr Hvideos Huri Hnonempty. cbv zeta.
  rewrite (generateVideo_with_key w _ _ _ key) by done. cbv zeta.
  rewrite Hsubmit.
  change (logged {| ai := _; log := log (start a); statusCalls := _ |} _)
    with (logged (start (Some {| apiKey := key |}))
            [CallGenerateVideos (payload request)]).
  rewrite Hpoll.
  pose proof (poll_sound w {| apiKey := key |} fuel submitted
    (logged (start (Some {| apiKey := key |})) [CallGenerateVideos (payload request)]))
    as (pcalls & Hs2 & Hrun).
  rewrite Hpoll in Hs2, Hrun. simpl in Hs2, Hrun.
  destruct (deliver_sound w final s2) as (calls & Hs3 & Hdelivery).
  assert (Download w (downloadUrl videoUri (Some key)) calls
            (fst (deliver w final s2))) as Hdownload.
  { rewrite <- Hkey.
    destruct Hdelivery as
      [ err Herr'
      | Herr' Hnone
      | first' rest' Herr' Hvideos' Huri'
      | first' rest' videoUri' calls result Herr' Hvideos' Huri' Htruthy' Hdl ].
    - congruence.
    - destruct Hnone; congruence.
    - rewrite Hvideos in Hvideos'. injection Hvideos' as <- <-.
      rewrite Huri in Huri'. simpl in Huri'. congruence.
    - rewrite Hvideos in Hvideos'. injection Hvideos' as <- <-.
      rewrite Huri in Huri'. by injection Huri' as <-. }
  destruct (Download_starts_with_fetch _ _ _ _ Hdownload) as (after & -> & Hafter).
  exists (downloadUrl videoUri (Some key)), after. split; [|split].
  - unfold downloadUrl. simpl.
    destruct (Js.includes videoUri "?") eqn:Hquery.
    + left. split; [|done]. by apply JsFacts.includes_spec.
    + right. split; [|done]. intros Hcontains.
      apply JsFacts.includes_spec in Hcontains. congruence.
  - rewrite Hs3. done.
  - rewrite Hs3. simpl. intros url' Hin.
    apply elem_of_app in Hin as [Hin|Hin].
    + rewrite Hs2 in Hin. simpl in Hin.
      apply elem_of_cons in Hin as [Hin|Hin]; [done|].
      by eapply PollRun_no_fetch in Hin.
    + apply elem_of_cons in Hin as [Hin|Hin]; [congruence|].
      by destruct (Hafter url').
Qed.

(** C6. For a request without an image the object passed to the vendor's
    generation call has no [image] property at all (the property is not bound,
    neither to [null] nor to [undefined]).  For a request with an image the
    object is the one of the same request without the image, with the
    [image] property added.  This object is the first thing the client
    submits. *)
Theorem payload_image_field (request : GenerationRequest.t) :
  (GenerationRequest.image request = None → payload request !! "image" = None) ∧
  (∀ image, GenerationRequest.image request = Some image →
     let without :=
       GenerationRequest.mk (GenerationRequest.prompt request) None
         (GenerationRequest.config request) in
     payload request =
       <["image" := Js.JObj (Js.object [("imageBytes", Js.JStr (data image));
                                        ("mimeType", Js.nullable (mimeType image))])]>
         (payload without) ∧
     delete "image" (payload request) = payload without) ∧
  (∀ w a fuel key,
     env_API_KEY w = Some key → Js.truthy key = true →
     ∃ rest, log (snd (generateVideo w fuel request (start a))) =
             CallGenerateVideos (payload request) :: rest).
Proof.
  split; [|split].
  - intros Himage. unfold payload. rewrite Himage. unfold Js.object. simpl.
    by rewrite !lookup_insert_ne.
  - intros image Himage without.
    assert (payload request =
      <["image" := Js.JObj (Js.object [("imageBytes", Js.JStr (data image));
                                       ("mimeType", Js.nullable (mimeType image))])]>
        (payload without)) as Heq.
    { unfold payload. rewrite Himage. unfold without, Js.object. simpl.
      rewrite (insert_insert_ne _ "prompt" "image") by done.
      by rewrite (insert_insert_ne _ "model" "image") by done. }
    split; [exact Heq|].
    rewrite Heq, delete_insert_eq. apply delete_id.
    unfold payload, without, Js.object. simpl.
    by rewrite !lookup_insert_ne.
  - intros w a fuel key Hkey Htruthy.
    destruct (generateVideo_sound w fuel request (start a)) as (calls & -> & Hrun).
    destruct Hrun; simpl; try by eexists.
    rewrite Hkey in *. simpl in *. congruence.
Qed.

(** *** The statements above on the scenarios *)

(** The end-to-end scenario of the specification: the request is submitted,
    two status calls are made five seconds apart (the first answer is not
    done, the second is done with one result), the body is fetched with the
    key appended, and the object URL is returned. *)
Example lake_end_to_end :
  generateVideo Scenario.lake_world 2 Scenario.lake (start None) =
  (Normal "blob:lake",
   {| ai := Some {| apiKey := "KEY" |};
      log := [CallGenerateVideos (payload Scenario.lake);
              CallWait 5000;
              CallGetVideosOperation Scenario.pending_operation;
              CallWait 5000;
              CallGetVideosOperation Scenario.pending_operation;
              CallFetch "https://videos.example/lake.mp4?alt=media&key=KEY";
              CallBlob (Response.mk true "OK" Scenario.lake_bytes);
              CallCreateObjectURL Scenario.lake_bytes];
      statusCalls := 2 |}).
Proof. reflexivity. Qed.

Lemma lake_world_done_from c : done_from Scenario.lake_world c 1.
Proof.
  intros k operation operation' Hk Hanswer Herr.
  destruct k as [|k]; [lia|]. simpl in Hanswer. by simplify_eq.
Defined.



Lemma status_error_fails_immediately_witness :
  fst (generateVideo Scenario.failing_world 5 Scenario.lake (start None)) =
    Throw (NewError PollingOperationError "quota exceeded") ∧
  @nil Call = [].
Proof.
  apply (status_error_fails_immediately Scenario.failing_world None 5
           Scenario.lake "KEY"
           [CallGenerateVideos (payload Scenario.lake); CallWait 5000;
            CallGetVideosOperation Scenario.pending_operation; CallWait 5000]
           [] Scenario.pending_operation Scenario.failed_answer
           {| message := Some "quota exceeded" |});
    reflexivity.
Defined.

Lemma completed_without_payload_fails_witness :
  Js.truthy_flag (Operation.done (Scenario.finished_operation [])) = true ∧
  ∃ site message,
    generateVideo Scenario.empty_world 5 Scenario.lake (start None) =
      (Throw (NewError site message),
       logged (start (Some {| apiKey := "KEY" |}))
         [CallGenerateVideos (payload Scenario.lake)]) ∧
    kind_of site = Some MissingPayloadError.
Proof.
  apply (completed_without_payload_fails Scenario.empty_world None 5
           Scenario.lake "KEY" (Scenario.finished_operation [])
           (Scenario.finished_operation []));
    try reflexivity.
  right. left. reflexivity.
Defined.

Lemma poll_loop_contract_witness :
  ∃ polled current,
    handed_on Scenario.lake_world {| apiKey := "KEY" |} 0
      Scenario.pending_operation polled current ∧
    Forall (λ h, Js.truthy_flag (Operation.done h) = false) polled.
Proof.
  destruct (poll_loop_contract Scenario.lake_world None 2 Scenario.lake "KEY"
              Scenario.pending_operation)
    as (polled & current & Hhanded & Hnotdone & _); [reflexivity..|].
  by exists polled, current.
Defined.

Lemma download_url_appends_key_witness :
  (∃ url after,
     log (snd (generateVideo Scenario.lake_world 2 Scenario.lake (start None))) =
       [CallGenerateVideos (payload Scenario.lake);
        CallWait 5000; CallGetVideosOperation Scenario.pending_operation;
        CallWait 5000; CallGetVideosOperation Scenario.pending_operation]
       ++ CallFetch url :: after ∧
     url = "https://videos.example/lake.mp4?alt=media&key=KEY") ∧
  (∃ url after,
     log (snd (generateVideo Scenario2.plain_world 2 Scenario.lake (start None))) =
       [CallGenerateVideos (payload Scenario.lake)] ++ CallFetch url :: after ∧
     url = "https://videos.example/lake.mp4?key=KEY").
Proof.
  split.
  - destruct (download_url_appends_key Scenario.lake_world None 2 Scenario.lake
                "KEY" Scenario.pending_operation
                (Scenario.finished_operation [Scenario.lake_video])
                (logged (start (Some {| apiKey := "KEY" |}))
                   [CallGenerateVideos (payload Scenario.lake);
                    CallWait 5000;
                    CallGetVideosOperation Scenario.pending_operation;
                    CallWait 5000;
                    CallGetVideosOperation Scenario.pending_operation])
                Scenario.lake_video [] "https://videos.example/lake.mp4?alt=media")
      as (url & after & [[_ Hurl]|[Hnone _]] & Hlog & _); try reflexivity.
    + exists url, after. split; [exact Hlog | exact Hurl].
    + destruct Hnone. by exists "https://videos.example/lake.mp4", "alt=media".
  - destruct (download_url_appends_key Scenario2.plain_world None 2 Scenario.lake
                "KEY" (Scenario.finished_operation [Scenario2.plain_video])
                (Scenario.finished_operation [Scenario2.plain_video])
                (logged (start (Some {| apiKey := "KEY" |}))
                   [CallGenerateVideos (payload Scenario.lake)])
                Scenario2.plain_video [] "https://videos.example/lake.mp4")
      as (url & after & [[Hquery _]|[_ Hurl]] & Hlog & _); try reflexivity.
    + apply JsFacts.includes_spec in Hquery. discriminate.
    + exists url, after. split; [exact Hlog | exact Hurl].
Defined.

Lemma payload_image_field_witness :
  payload Scenario.lake !! "image" = None.
Proof.
  apply (proj1 (payload_image_field Scenario.lake)). reflexivity.
Defined.

End GeminiServiceFacts.

(** ** The message store *)

Module AppFacts.
Import Types Vendor App.

Lemma settle_messages agentMessageId result st :
  messages (handleSendMessage_settle agentMessageId result st) =
  touch agentMessageId result <$> messages st.
Proof.
  destruct result as [videoUrl|e|]; simpl; try done.
  induction (messages st) as [|msg l IH]; [done|].
  rewrite fmap_cons, <- IH. unfold touch. simpl. by destruct (String.eqb _ _).
Qed.

Lemma resolved_id result msg : Message.id (resolved result msg) = Message.id msg.
Proof. by destruct result. Qed.

Lemma touch_id a result msg : Message.id (touch a result msg) = Message.id msg.
Proof. unfold touch. destruct (String.eqb _ _); [apply resolved_id | done]. Qed.

Lemma touch_other a result msg : Message.id msg ≠ a → touch a result msg = msg.
Proof.
  intros Hne. unfold touch.
  destruct (String.eqb_spec (Message.id msg) a); [done | done].
Qed.

Lemma touch_same a result msg :
  Message.id msg = a → touch a result msg = resolved result msg.
Proof. intros <-. unfold touch. by rewrite String.eqb_refl. Qed.

Lemma touch_ids a result (l : list Message.t) :
  Message.id <$> (touch a result <$> l) = Message.id <$> l.
Proof.
  rewrite <- list_fmap_compose. apply list_fmap_ext. intros i msg _. simpl.
  apply touch_id.
Qed.

Lemma touch_written a result msg :
  written_status (Message.status msg) →
  written_status (Message.status (touch a result msg)).
Proof.
  intros Hmsg. unfold touch. destruct (String.eqb _ _); [|done].
  destruct result; simpl; unfold written_status; auto.
Qed.

Lemma step_messages e s :
  ∃ result a added,
    messages (app (step e s)) = (touch a result <$> messages (app s)) ++ added ∧
    Forall (λ msg, written_status (Message.status msg)) added.
Proof.
  assert (∀ l : list Message.t,
    l = (touch "" GeminiService.Unsettled <$> l) ++ []) as Hsame.
  { intros l. rewrite app_nil_r. induction l as [|msg l IH]; [done|].
    rewrite fmap_cons, <- IH. unfold touch. simpl. by destruct (String.eqb _ _). }
  destruct e as [studio key|studio|text image mime config clock|call result]; simpl.
  - exists GeminiService.Unsettled, "", []. split; [|done].
    unfold checkApiKey. destruct studio as [studio|].
    + destruct (hasSelectedApiKey studio); apply Hsame.
    + destruct (Js.truthy_opt key); apply Hsame.
  - exists GeminiService.Unsettled, "", []. split; [|done].
    unfold handleSelectKey. destruct studio as [studio|]; [|apply Hsame].
    destruct (openSelectKey studio); apply Hsame.
  - unfold handleSendMessage_submit.
    destruct (apiKeySet (app s)); simpl.
    + exists GeminiService.Unsettled, "",
        [newUserMessage text image clock; newAgentMessage clock].
      split.
      * f_equal. rewrite (Hsame (messages (app s))) at 1. by rewrite app_nil_r.
      * constructor; [by left|]. constructor; [by right; left | constructor].
    + exists GeminiService.Unsettled, "", []. split; [apply Hsame | done].
  - destruct (calls s !! call) as [[a [|]]|]; simpl;
      try (exists GeminiService.Unsettled, "", []; split; [apply Hsame | done]).
    destruct (settled_result result); simpl.
    + exists result, a, []. split; [|done].
      by rewrite settle_messages, app_nil_r.
    + exists GeminiService.Unsettled, "", []. split; [apply Hsame | done].
Qed.

Lemma run_cons e events s : run (e :: events) s = run events (step e s).
Proof. done. Qed.

Lemma run_app events events' s :
  run (events ++ events') s = run events' (run events s).
Proof. apply fold_left_app. Qed.

Lemma step_written e s :
  Forall (λ msg, written_status (Message.status msg)) (messages (app s)) →
  Forall (λ msg, written_status (Message.status msg)) (messages (app (step e s))).
Proof.
  intros Hs. destruct (step_messages e s) as (result & a & added & -> & Hadded).
  apply Forall_app. split; [|done].
  apply Forall_fmap. eapply Forall_impl; [exact Hs|].
  intros msg Hmsg. simpl. by apply touch_written.
Qed.

Lemma run_written events s :
  Forall (λ msg, written_status (Message.status msg)) (messages (app s)) →
  Forall (λ msg, written_status (Message.status msg)) (messages (app (run events s))).
Proof.
  revert s. induction events as [|e events IH]; intros s Hs; [done|].
  rewrite run_cons. by apply IH, step_written.
Qed.

(** No event removes or reorders messages: the ids of the messages before an
    event are the first ids after it. *)
Lemma step_ids_prefix e s :
  (Message.id <$> messages (app s)) `prefix_of`
  (Message.id <$> messages (app (step e s))).
Proof.
  destruct (step_messages e s) as (result & a & added & -> & _).
  rewrite fmap_app, touch_ids. by eexists.
Qed.

Lemma run_ids_prefix events s :
  (Message.id <$> messages (app s)) `prefix_of`
  (Message.id <$> messages (app (run events s))).
Proof.
  revert s. induction events as [|e events IH]; intros s; [done|].
  rewrite run_cons. etrans; [apply step_ids_prefix | apply IH].
Qed.

Lemma wf_mounted now : wf (mounted now).
Proof. split; [done|]. intros j a b Hj. simpl in Hj. by destruct j. Qed.

Lemma wf_step e s : wf s → wf (step e s).
Proof.
  intros [Hlen Hcalls].
  destruct e as [studio key|studio|text image mime config clock|call result]; simpl.
  - split; [|intros j a b Hj; destruct (Hcalls j a b Hj) as (msg & Hmsg & Hid)];
      unfold checkApiKey;
      (destruct studio as [studio|];
       [destruct (hasSelectedApiKey studio) | destruct (Js.truthy_opt key)]);
      simpl; eauto.
  - split; [|intros j a b Hj; destruct (Hcalls j a b Hj) as (msg & Hmsg & Hid)];
      unfold handleSelectKey;
      (destruct studio as [studio|]; [destruct (openSelectKey studio)|]);
      simpl; eauto.
  - unfold handleSendMessage_submit. destruct (apiKeySet (app s)); simpl.
    2: { by split. }
    split; simpl.
    + rewrite !length_app, Hlen. unfold placeholder_index. simpl. lia.
    + intros j a b Hj. apply lookup_app_Some in Hj as [Hj|[Hge Hj]].
      * destruct (Hcalls j a b Hj) as (msg & Hmsg & Hid).
        exists msg. split; [|done]. by apply lookup_app_l_Some.
      * destruct (j - length (calls s)) as [|n] eqn:Hn; [|done].
        simpl in Hj. simplify_eq.
        exists (newAgentMessage clock). split; [|done].
        unfold placeholder_index in *. rewrite lookup_app_r by lia.
        match goal with |- _ !! ?i = _ => by replace i with 1 by lia end.
  - destruct (calls s !! call) as [[a' [|]]|] eqn:Hcall; simpl; try by split.
    destruct (settled_result result); simpl; [|by split].
    split; simpl.
    + rewrite settle_messages, length_fmap, length_insert. done.
    + intros j a b Hj. rewrite settle_messages, list_lookup_fmap.
      destruct (decide (j = call)) as [->|Hne].
      * rewrite list_lookup_insert_eq in Hj by (by eapply lookup_lt_Some).
        simplify_eq. destruct (Hcalls call a false Hcall) as (msg & -> & Hid).
        simpl. eexists. split; [done|]. by rewrite touch_id.
      * rewrite list_lookup_insert_ne in Hj by done.
        destruct (Hcalls j a b Hj) as (msg & -> & Hid).
        simpl. eexists. split; [done|]. by rewrite touch_id.
Qed.

Lemma wf_run events s : wf s → wf (run events s).
Proof.
  revert s. induction events as [|e events IH]; intros s Hs; [done|].
  rewrite run_cons. by apply IH, wf_step.
Qed.

Lemma NoDup_step e s :
  NoDup (Message.id <$> messages (app (step e s))) →
  NoDup (Message.id <$> messages (app s)).
Proof.
  intros Hnodup. destruct (step_ids_prefix e s) as [more Hmore].
  rewrite Hmore in Hnodup. by apply NoDup_app in Hnodup as [? _].
Qed.

Lemma NoDup_run events s :
  NoDup (Message.id <$> messages (app (run events s))) →
  NoDup (Message.id <$> messages (app s)).
Proof.
  intros Hnodup. destruct (run_ids_prefix events s) as [more Hmore].
  rewrite Hmore in Hnodup. by apply NoDup_app in Hnodup as [? _].
Qed.

Lemma placeholder_index_inj j j' :
  placeholder_index j = placeholder_index j' → j = j'.
Proof. unfold placeholder_index. lia. Qed.

(** With distinct ids, two calls hold different ids. *)
Lemma calls_distinct s j j' a b b' :
  wf s → NoDup (Message.id <$> messages (app s)) →
  calls s !! j = Some (a, b) → calls s !! j' = Some (a, b') → j = j'.
Proof.
  intros [_ Hcalls] Hnodup Hj Hj'.
  destruct (Hcalls _ _ _ Hj) as (msg & Hmsg & Hid).
  destruct (Hcalls _ _ _ Hj') as (msg' & Hmsg' & Hid').
  apply placeholder_index_inj.
  eapply (NoDup_lookup _ _ _ a Hnodup); rewrite list_lookup_fmap.
  - by rewrite Hmsg; simpl; rewrite Hid.
  - by rewrite Hmsg'; simpl; rewrite Hid'.
Qed.

(** An event that is not the settlement of call [j] leaves the call and its
    placeholder alone, provided ids are distinct. *)
Lemma step_other e s j a b :
  wf s → NoDup (Message.id <$> messages (app s)) →
  calls s !! j = Some (a, b) →
  (∀ result, e = Settle j result → b = true ∨ settled_result result = false) →
  calls (step e s) !! j = Some (a, b) ∧
  messages (app (step e s)) !! placeholder_index j =
    messages (app s) !! placeholder_index j.
Proof.
  intros Hwf Hnodup Hj He.
  destruct (proj2 Hwf _ _ _ Hj) as (msg & Hmsg & Hid).
  destruct e as [studio key|studio|text image mime config clock|call result]; simpl.
  - split; [done|]. unfold checkApiKey. destruct studio as [studio|].
    + by destruct (hasSelectedApiKey studio).
    + by destruct (Js.truthy_opt key).
  - split; [done|]. unfold handleSelectKey. destruct studio as [studio|]; [|done].
    by destruct (openSelectKey studio).
  - unfold handleSendMessage_submit. destruct (apiKeySet (app s)); simpl; [|done].
    split.
    + by apply lookup_app_l_Some.
    + rewrite Hmsg. by apply lookup_app_l_Some.
  - destruct (calls s !! call) as [[a' [|]]|] eqn:Hcall; simpl; try done.
    destruct (settled_result result) eqn:Hresult; simpl; [|done].
    destruct (decide (call = j)) as [->|Hne].
    { destruct (He result eq_refl) as [->|?]; congruence. }
    split.
    + by rewrite list_lookup_insert_ne.
    + rewrite settle_messages, list_lookup_fmap, Hmsg. simpl. f_equal.
      apply touch_other. intros Heq. apply Hne.
      assert (a = a') as -> by congruence.
      by eapply (calls_distinct s call j).
Qed.

(** The settlement of call [j] runs its continuation on the placeholder. *)
Lemma step_own s j a result placeholder :
  wf s → calls s !! j = Some (a, false) →
  settled_result result = true →
  messages (app s) !! placeholder_index j = Some placeholder →
  calls (step (Settle j result) s) !! j = Some (a, true) ∧
  messages (app (step (Settle j result) s)) !! placeholder_index j =
    Some (resolved result placeholder).
Proof.
  intros Hwf Hj Hresult Hplaceholder.
  destruct (proj2 Hwf _ _ _ Hj) as (msg & Hmsg & Hid).
  simpl. rewrite Hj, Hresult. simpl. split.
  - apply list_lookup_insert_eq. by eapply lookup_lt_Some.
  - rewrite settle_messages, list_lookup_fmap, Hplaceholder. simpl. f_equal.
    apply touch_same. congruence.
Qed.

Lemma resolved_changes result msg :
  settled_result result = true →
  Message.status msg = Some generating →
  resolved result msg ≠ msg.
Proof.
  intros Hresult Hstatus Heq. apply (f_equal Message.status) in Heq.
  rewrite Hstatus in Heq. by destruct result.
Qed.

(** Once its call has settled, a placeholder is not touched again. *)
Lemma settled_stays events s j a :
  wf s → calls s !! j = Some (a, true) →
  NoDup (Message.id <$> messages (app (run events s))) →
  calls (run events s) !! j = Some (a, true) ∧
  changes (placeholder_index j) events s = 0 ∧
  messages (app (run events s)) !! placeholder_index j =
    messages (app s) !! placeholder_index j.
Proof.
  revert s. induction events as [|e events IH]; intros s Hwf Hj Hnodup; [done|].
  rewrite run_cons in *.
  destruct (step_other e s j a true Hwf) as [Hj' Hmsg]; auto.
  { by eapply NoDup_step, NoDup_run. }
  destruct (IH (step e s)) as (Hcalls & Hchanges & Hfinal); auto using wf_step.
  split; [done|]. split.
  - simpl. rewrite Hchanges. by rewrite decide_True.
  - by rewrite Hfinal.
Qed.

(** A placeholder whose call is pending is changed by the settlement of its
    call and by nothing else. *)
Lemma pending_lifecycle events s j a placeholder :
  wf s → calls s !! j = Some (a, false) →
  messages (app s) !! placeholder_index j = Some placeholder →
  Message.status placeholder = Some generating →
  NoDup (Message.id <$> messages (app (run events s))) →
  (calls (run events s) !! j = Some (a, false) ∧
   changes (placeholder_index j) events s = 0 ∧
   messages (app (run events s)) !! placeholder_index j = Some placeholder) ∨
  (∃ result,
     Settle j result ∈ events ∧ settled_result result = true ∧
     calls (run events s) !! j = Some (a, true) ∧
     changes (placeholder_index j) events s = 1 ∧
     messages (app (run events s)) !! placeholder_index j =
       Some (resolved result placeholder)).
Proof.
  revert s. induction events as [|e events IH];
    intros s Hwf Hj Hplaceholder Hstatus Hnodup; [by left|].
  rewrite run_cons in *.
  assert (NoDup (Message.id <$> messages (app s))) as Hnodup_s.
  { by eapply NoDup_step, NoDup_run. }
  assert ((∃ result, e = Settle j result ∧ settled_result result = true) ∨
          (∀ result, e = Settle j result →
                     false = true ∨ settled_result result = false))
    as [(result & -> & Hresult)|Hother].
  { destruct e as [| | |call result]; try by right.
    destruct (decide (call = j)) as [->|Hne]; [|right; intros ? [= ? ?]; done].
    destruct (settled_result result) eqn:Hresult; [left; eauto|].
    right. intros ? [= <-]. by right. }
  - right. exists result.
    destruct (step_own s j a result placeholder) as [Hj' Hmsg]; auto.
    destruct (settled_stays events (step (Settle j result) s) j a)
      as (Hcalls & Hchanges & Hfinal); auto using wf_step.
    repeat split; try done.
    + apply elem_of_cons. by left.
    + cbn [changes]. rewrite Hchanges, Hmsg, Hplaceholder.
      rewrite decide_False; [done|].
      intros Heq. simplify_eq. by eapply resolved_changes.
    + by rewrite Hfinal.
  - destruct (step_other e s j a false Hwf) as [Hj' Hmsg]; auto.
    destruct (IH (step e s)) as
      [(Hcalls & Hchanges & Hfinal)|(result & Hin & Hresult & Hcalls & Hchanges & Hfinal)];
      auto using wf_step.
    { by rewrite Hmsg. }
    + left. repeat split; try done.
      cbn [changes]. rewrite Hchanges. by rewrite decide_True.
    + right. exists result. repeat split; try done.
      * apply elem_of_cons. by right.
      * cbn [changes]. rewrite Hchanges. by rewrite decide_True.
Qed.

Lemma contains_truthy (message part before after : string) :
  part ≠ "" → message = before +:+ part +:+ after → Js.truthy message = true.
Proof.
  intros Hpart ->. destruct before; [|done]. by destruct part.
Qed.

(** * The claims about the message store *)

(** X21.  The agent message a submission creates is appended after the
    user's message, in status [generating], and no event removes a message:
    the ids in the list before are the first ids in the list after.  In a
    session in which no two messages carry the same id, the agent message is
    changed by exactly one event, the settlement of its own call: never
    before that settlement, once by it, to [complete] with the video URL or
    to [error] with an error message, and never after. *)
Theorem agent_message_lifecycle (now : Z) (before after : list Event)
    (text : string) (imageBase64 mimeType : option string)
    (config : GenerationConfig) (clock : Clock) :
  let s1 := run before (mounted now) in
  let s2 := step (Send text imageBase64 mimeType config clock) s1 in
  let s3 := run after s2 in
  let call := length (calls s1) in
  let k := placeholder_index call in
  apiKeySet (app s1) = true →
  messages (app s2) =
    messages (app s1) ++
    [newUserMessage text imageBase64 clock; newAgentMessage clock] ∧
  messages (app s2) !! k = Some (newAgentMessage clock) ∧
  Message.status (newAgentMessage clock) = Some generating ∧
  (NoDup (Message.id <$> messages (app s3)) →
   (changes k after s2 = 0 ∧
    calls s3 !! call = Some (agentMessageId clock, false) ∧
    messages (app s3) !! k = Some (newAgentMessage clock)) ∨
   (∃ result,
      Settle call result ∈ after ∧
      changes k after s2 = 1 ∧
      calls s3 !! call = Some (agentMessageId clock, true) ∧
      messages (app s3) !! k = Some (resolved result (newAgentMessage clock)) ∧
      ((∃ videoUrl,
          result = GeminiService.Normal videoUrl ∧
          Message.status (resolved result (newAgentMessage clock)) = Some complete ∧
          Message.videoUrl (resolved result (newAgentMessage clock)) = Some videoUrl) ∨
       (∃ e message,
          result = GeminiService.Throw e ∧
          Message.status (resolved result (newAgentMessage clock)) = Some error ∧
          Message.error (resolved result (newAgentMessage clock)) = Some message)))) ∧
  (Message.id <$> messages (app s1)) `prefix_of` (Message.id <$> messages (app s3)).
Proof.
  intros s1 s2 s3 call k Hkey.
  assert (wf s1) as Hwf1 by apply wf_run, wf_mounted.
  assert (wf s2) as Hwf2 by by apply wf_step.
  assert (calls s2 = calls s1 ++ [(agentMessageId clock, false)] ∧
          messages (app s2) =
            messages (app s1) ++
            [newUserMessage text imageBase64 clock; newAgentMessage clock])
    as [Hcalls2 Hmessages2].
  { subst s2. simpl. unfold handleSendMessage_submit. by rewrite Hkey. }
  assert (calls s2 !! call = Some (agentMessageId clock, false)) as Hcall.
  { rewrite Hcalls2. subst call. by rewrite lookup_app_r, Nat.sub_diag. }
  assert (messages (app s2) !! k = Some (newAgentMessage clock)) as Hplaceholder.
  { subst k. destruct Hwf1 as [Hlen _]. rewrite Hmessages2.
    assert (placeholder_index call = length (messages (app s1)) + 1) as ->.
    { subst call. unfold placeholder_index in *. lia. }
    rewrite lookup_app_r by lia.
    by replace (length (messages (app s1)) + 1 - length (messages (app s1)))
      with 1 by lia. }
  split; [done|]. split; [done|]. split; [done|]. split.
  - intros Hnodup.
    destruct (pending_lifecycle after s2 call (agentMessageId clock)
                (newAgentMessage clock) Hwf2 Hcall Hplaceholder eq_refl Hnodup)
      as [(Hcalls & Hchanges & Hfinal)
         |(result & Hin & Hresult & Hcalls & Hchanges & Hfinal)].
    + by left.
    + right. exists result. repeat split; try done.
      destruct result as [videoUrl|e|]; [left|right|done].
      * by exists videoUrl.
      * by eexists e, _.
  - etrans; [apply (step_ids_prefix (Send text imageBase64 mimeType config clock))|].
    apply run_ids_prefix.
Qed.

(** C8, as amended.  After a failure the key-ready flag is reset exactly when
    the error has a message that contains "Requested entity was not found" or
    "API key not valid"; for every other failure, and on success, the flag is
    left as it was. *)
Theorem key_reset_on_credential_error (agentMessageId : string)
    (e : GeminiService.Thrown) (st : State) :
  let st' := handleSendMessage_settle agentMessageId (GeminiService.Throw e) st in
  let credential_error :=
    ∃ message,
      GeminiService.thrown_message e = Some message ∧
      ((∃ before after,
          message = before +:+ "Requested entity was not found" +:+ after) ∨
       (∃ before after, message = before +:+ "API key not valid" +:+ after)) in
  (credential_error → apiKeySet st' = false) ∧
  (¬ credential_error → apiKeySet st' = apiKeySet st) ∧
  (∀ videoUrl,
     apiKeySet (handleSendMessage_settle agentMessageId
                  (GeminiService.Normal videoUrl) st) = apiKeySet st).
Proof.
  simpl. repeat split.
  - intros (message & -> & Hpattern). simpl.
    assert (Js.truthy message = true) as ->.
    { destruct Hpattern as [(before & after & Heq)|(before & after & Heq)];
        (eapply (contains_truthy _ _ before after); [|exact Heq]); done. }
    simpl. rewrite <- !JsFacts.includes_spec in Hpattern.
    by destruct Hpattern as [->| ->]; rewrite ?orb_true_r.
  - intros Hnot. destruct (is_key_error _) eqn:Hkey; [|done].
    destruct Hnot. unfold is_key_error in Hkey.
    destruct (GeminiService.thrown_message e) as [message|]; [|done].
    exists message. split; [done|].
    apply andb_true_iff in Hkey as [_ Hkey].
    apply orb_true_iff in Hkey. by rewrite <- !JsFacts.includes_spec.
Qed.

(** X22.  The settlement changes neither the length of the list nor the id,
    role or timestamp at any position, and it leaves every message whose id
    differs from the placeholder's id unchanged.  When the ids in the list
    are distinct, the placeholder is the only message it can change.  The
    user message of the same submission has a different id whenever the clock
    did not run backwards between lines 64 and 73. *)
Theorem settle_frame (agentMessageId : string)
    (result : GeminiService.Completion string) (st : State) :
  let st' := handleSendMessage_settle agentMessageId result st in
  length (messages st') = length (messages st) ∧
  Message.id <$> messages st' = Message.id <$> messages st ∧
  Message.role <$> messages st' = Message.role <$> messages st ∧
  Message.timestamp <$> messages st' = Message.timestamp <$> messages st ∧
  (∀ i msg, messages st !! i = Some msg → Message.id msg ≠ agentMessageId →
            messages st' !! i = Some msg) ∧
  (∀ k placeholder,
     NoDup (Message.id <$> messages st) →
     messages st !! k = Some placeholder →
     Message.id placeholder = agentMessageId →
     ∀ i, i ≠ k → messages st' !! i = messages st !! i) ∧
  (∀ text imageBase64 clock,
     (now_64 clock ≤ now_73 clock)%Z →
     Message.id (newUserMessage text imageBase64 clock) ≠ App.agentMessageId clock).
Proof.
  cbv zeta. rewrite settle_messages.
  assert (∀ i msg, messages st !! i = Some msg →
                   Message.id msg ≠ agentMessageId →
                   (touch agentMessageId result <$> messages st) !! i = Some msg)
    as Hother.
  { intros i msg Hmsg Hne. rewrite list_lookup_fmap, Hmsg. simpl.
    by rewrite touch_other. }
  split; [by rewrite length_fmap|].
  split; [apply touch_ids|].
  split.
  { rewrite <- list_fmap_compose. apply list_fmap_ext. intros i msg _. simpl.
    unfold touch. destruct (String.eqb _ _); [by destruct result | done]. }
  split.
  { rewrite <- list_fmap_compose. apply list_fmap_ext. intros i msg _. simpl.
    unfold touch. destruct (String.eqb _ _); [by destruct result | done]. }
  split; [exact Hother|]. split.
  - intros k placeholder Hnodup Hk Hid i Hne.
    destruct (messages st !! i) as [msg|] eqn:Hi.
    + apply Hother; [done|]. intros Heq. apply Hne.
      eapply (NoDup_lookup _ _ _ agentMessageId Hnodup);
        rewrite list_lookup_fmap.
      * by rewrite Hi; simpl; rewrite Heq.
      * by rewrite Hk; simpl; rewrite Hid.
    + by rewrite list_lookup_fmap, Hi.
  - intros text imageBase64 clock Hclock Heq. simpl in Heq.
    apply JsFacts.toString_inj in Heq. lia.
Qed.

(** C10.  In every session every stored message has status undefined,
    [generating], [complete] or [error]; [pending] is never stored. *)
Theorem no_message_is_pending (now : Z) (events : list Event) :
  Forall (λ msg, written_status (Message.status msg) ∧
                 Message.status msg ≠ Some pending)
    (messages (app (run events (mounted now)))).
Proof.
  eapply Forall_impl.
  - apply run_written. repeat constructor.
  - intros msg Hwritten. split; [done|].
    by destruct Hwritten as [->|[->|[->| ->]]].
Qed.

(** *** The statements above on the scenarios *)

(** A whole call in the world of the end-to-end scenario: the user message
    and the agent message are appended, and the agent message ends up
    [complete] with the object URL. *)
Example lake_in_the_chat :
  let st := checkApiKey (Some Scenario.studio) None (initial 0) in
  let st' := handleSendMessage Scenario.lake_world 2 "a calm lake at sunset"
               None None Scenario.landscape_720p (Scenario.clock_at 1000) st in
  messages st' =
    messages st ++
    [Message.mk "1000" user (Some "a calm lake at sunset") None None None None 1000;
     Message.mk "1001" agent (Some "Here is your generated video!") None
       (Some "blob:lake") (Some complete) None 1000] ∧
  isProcessing st' = false ∧ apiKeySet st' = true.
Proof. vm_compute. repeat split; reflexivity. Qed.

(** C7, the code at its failing input.  Two submissions made while the clock
    reads the same millisecond get the same agent id, although line 73 adds
    one to the reading to keep ids apart.  The agent message of the first
    submission is then changed twice: to [complete] by its own call, and to
    [error] by the second call. *)
Lemma agent_message_changed_twice :
  let s2 := run (Scenario.first_call 1000) (mounted 0) in
  let after := Scenario.then_second_call 1000 in
  messages (app s2) !! placeholder_index 0 =
    Some (newAgentMessage (Scenario.clock_at 1000)) ∧
  changes (placeholder_index 0) after s2 = 2 ∧
  Message.status <$> messages (app (run (take 1 after) s2)) !! placeholder_index 0 =
    Some (Some complete) ∧
  Message.status <$> messages (app (run after s2)) !! placeholder_index 0 =
    Some (Some error).
Proof. vm_compute. repeat split; reflexivity. Qed.

Lemma agent_message_lifecycle_witness :
  changes (placeholder_index 0) (Scenario.then_second_call 2000)
    (run (Scenario.first_call 1000) (mounted 0)) = 1.
Proof.
  destruct (agent_message_lifecycle 0
              [CheckApiKey (Some Scenario.studio) None]
              (Scenario.then_second_call 2000)
              "a calm lake at sunset" None None Scenario.landscape_720p
              (Scenario.clock_at 1000))
    as (_ & _ & _ & Hlifecycle & _); [reflexivity|].
  destruct Hlifecycle as [(Hchanges & _)|(result & _ & Hchanges & _)].
  - apply (bool_decide_unpack _). vm_compute. exact I.
  - vm_compute in Hchanges. discriminate Hchanges.
  - exact Hchanges.
Defined.

(** A failure whose message contains "entity was not found", but not
    "Requested entity was not found", does not reset the flag. *)
Lemma key_reset_misses_entity_not_found :
  let e := GeminiService.Rejection GeminiService.AwaitGenerateVideos
             {| reason_message := Some "The entity was not found." |} in
  let st := {| messages := []; isProcessing := true; apiKeySet := true |} in
  Js.includes "The entity was not found." "entity was not found" = true ∧
  apiKeySet (handleSendMessage_settle "1001" (GeminiService.Throw e) st) = true.
Proof. vm_compute. split; reflexivity. Qed.

Lemma key_reset_on_credential_error_witness :
  apiKeySet
    (handleSendMessage_settle "1001"
       (GeminiService.Throw
          (GeminiService.Rejection GeminiService.AwaitGenerateVideos
             {| reason_message := Some "Requested entity was not found." |}))
       {| messages := []; isProcessing := true; apiKeySet := true |}) = false.
Proof.
  apply (proj1 (key_reset_on_credential_error "1001"
                  (GeminiService.Rejection GeminiService.AwaitGenerateVideos
                     {| reason_message := Some "Requested entity was not found." |})
                  {| messages := []; isProcessing := true; apiKeySet := true |})).
  exists "Requested entity was not found.". split; [reflexivity|].
  left. by exists "", ".".
Defined.

(** C9, the code at its failing input.  In the session in which two
    submissions read the same millisecond, the settlement of the second call,
    whose placeholder is at index 4, changes the message at index 2 as well:
    the agent message of the first submission, which has the same id. *)
Lemma settle_changes_earlier_message :
  let s := run (take 2 (Scenario.then_second_call 1000))
             (run (Scenario.first_call 1000) (mounted 0)) in
  let st' := handleSendMessage_settle (agentMessageId (Scenario.clock_at 1000))
               (GeminiService.Throw Scenario.download_failure) (app s) in
  messages (app s) !! 4 = Some (newAgentMessage (Scenario.clock_at 1000)) ∧
  Message.status <$> messages (app s) !! 2 = Some (Some complete) ∧
  Message.status <$> messages st' !! 2 = Some (Some error).
Proof. vm_compute. repeat split; reflexivity. Qed.

Lemma settle_frame_witness :
  let s := run (take 2 (Scenario.then_second_call 2000))
             (run (Scenario.first_call 1000) (mounted 0)) in
  let st' := handleSendMessage_settle (agentMessageId (Scenario.clock_at 2000))
               (GeminiService.Throw Scenario.download_failure) (app s) in
  messages st' !! 2 = messages (app s) !! 2 ∧
  Message.id (newUserMessage "the same lake at night" None (Scenario.clock_at 2000))
    ≠ agentMessageId (Scenario.clock_at 2000).
Proof.
  cbv zeta.
  destruct (settle_frame (agentMessageId (Scenario.clock_at 2000))
              (GeminiService.Throw Scenario.download_failure)
              (app (run (take 2 (Scenario.then_second_call 2000))
                      (run (Scenario.first_call 1000) (mounted 0)))))
    as (_ & _ & _ & _ & _ & Hunique & Huser).
  split.
  - apply (Hunique 4 (newAgentMessage (Scenario.clock_at 2000))).
    + apply (bool_decide_unpack _). vm_compute. exact I.
    + reflexivity.
    + reflexivity.
    + lia.
  - apply Huser. simpl. lia.
Defined.

End AppFacts.

(** ** More about the generation client *)

Module GeminiServiceMore.
Import Types Vendor GeminiService Trace GeminiServiceFacts Log.

Lemma count_app p (l1 l2 : list Call) : count p (l1 ++ l2) = count p l1 + count p l2.
Proof. induction l1 as [|c l1 IH]; simpl; [done|]. rewrite IH. lia. Qed.

Lemma waited_app (l1 l2 : list Call) : waited (l1 ++ l2) = (waited l1 + waited l2)%Z.
Proof. induction l1 as [|[] l1 IH]; simpl; lia. Qed.

Lemma count_status_calls (l : list Call) : count is_status_call l = status_calls_in l.
Proof. induction l as [|[] l IH]; simpl; lia. Qed.

Section Counts.
Variable w : World.

Lemma PollRun_counts c n operation calls result :
  PollRun w c n operation calls result →
  count is_wait calls = count is_status_call calls ∧
  waited calls = (5000 * Z.of_nat (count is_status_call calls))%Z ∧
  count is_generate calls = 0 ∧ count is_fetch calls = 0 ∧
  count is_blob calls = 0 ∧ count is_createObjectURL calls = 0.
Proof.
  induction 1 as [| | | |n operation operation' calls r Hdone Hanswer Herr Hrun IH];
    simpl; try done.
  destruct IH as (Hwait & Hwaited & Hgen & Hfetch & Hblob & Hurl).
  repeat split; try done; lia.
Qed.

Lemma Download_counts url calls result :
  Download w url calls result →
  count is_wait calls = 0 ∧ count is_status_call calls = 0 ∧ waited calls = 0%Z ∧
  count is_generate calls = 0 ∧ count is_fetch calls = 1 ∧
  count is_blob calls ≤ 1 ∧ count is_createObjectURL calls ≤ count is_blob calls.
Proof. destruct 1; simpl; repeat split; lia. Qed.

Lemma Delivery_counts operation calls result :
  Delivery w operation calls result →
  count is_wait calls = 0 ∧ count is_status_call calls = 0 ∧ waited calls = 0%Z ∧
  count is_generate calls = 0 ∧ count is_fetch calls ≤ 1 ∧
  count is_blob calls ≤ count is_fetch calls ∧
  count is_createObjectURL calls ≤ count is_blob calls.
Proof.
  destruct 1 as [| | |first rest videoUri calls result ???? Hdownload];
    simpl; try (repeat split; lia).
  apply Download_counts in Hdownload. repeat split; lia.
Qed.

(** A loop that is left normally either never ran, or left with a handle
    that came without an error. *)
Lemma PollRun_normal_shape c n operation calls final :
  PollRun w c n operation calls (Normal final) →
  (calls = [] ∧ final = operation) ∨
  (calls ≠ [] ∧ Operation.error final = None).
Proof.
  intros Hrun. remember (Normal final) as result eqn:Hresult.
  induction Hrun as
    [ n operation Hdone
    | n operation Hdone
    | n operation r Hdone Hanswer
    | n operation operation' err Hdone Hanswer Herr
    | n operation operation' calls r Hdone Hanswer Herr Hrun IH ];
    try discriminate.
  - left. split; [done | congruence].
  - right. split; [done|].
    destruct (IH Hresult) as [[_ ->]|[_ ?]]; done.
Qed.

End Counts.

(** X1. Without a usable key in the environment (none, or the empty string)
    a call fails at once with the "API Key not found" error: nothing is
    awaited and the service object is left as it was. *)
Theorem no_key_no_call (w : World) (fuel : nat) (request : GenerationRequest.t)
    (s : State) :
  Js.truthy_opt (env_API_KEY w) = false →
  generateVideo w fuel request s =
  (Throw (NewError ApiKeyNotFound "API Key not found. Please select a key."), s).
Proof. apply generateVideo_without_key. Qed.

Lemma no_key_no_call_witness :
  generateVideo Scenario2.keyless_world 5 Scenario.lake (start None) =
  (Throw (NewError ApiKeyNotFound "API Key not found. Please select a key."),
   start None).
Proof. apply no_key_no_call. reflexivity. Defined.



(** X3. An object URL is made only for the URL that is returned: if a call
    made one, it returns it, and that was the last thing it did; and a call
    that returns did fetch, got a successful response, read its body and made
    the URL from it, in that order, at the very end. *)
Theorem object_url_made_iff_returned (w : World) (a : option GoogleGenAI)
    (fuel : nat) (request : GenerationRequest.t) :
  let run := generateVideo w fuel request (start a) in
  (∀ b, CallCreateObjectURL b ∈ log (snd run) →
        fst run = Normal (createObjectURL w b) ∧
        last (log (snd run)) = Some (CallCreateObjectURL b)) ∧
  (∀ url, fst run = Normal url →
     ∃ front downloadUrl response b,
       log (snd run) =
         front ++ [CallFetch downloadUrl; CallBlob response; CallCreateObjectURL b] ∧
       fetch w downloadUrl = Fulfilled response ∧
       Response.ok response = true ∧
       blob w response = Fulfilled b ∧
       url = createObjectURL w b).
Proof.
  cbv zeta.
  destruct (generateVideo_sound w fuel request (start a)) as (calls & -> & Hrun).
  simpl.
  assert (∀ c n operation calls result b,
            PollRun w c n operation calls result →
            CallCreateObjectURL b ∉ calls) as Hpoll_no_url.
  { intros c n operation calls0 result b Hpoll.
    apply PollRun_counts in Hpoll as (_ & _ & _ & _ & _ & Hnone).
    intros Hin. induction calls0 as [|x calls0 IH]; [by apply elem_of_nil in Hin|].
    apply elem_of_cons in Hin as [<-|Hin]; simpl in Hnone; [done|].
    apply IH; [lia | done]. }
  split.
  - intros b Hin.
    destruct Hrun as
      [ Hnokey
      | key r Hkey Htruthy Hsubmit
      | key submitted calls e Hkey Htruthy Hsubmit Hpoll
      | key submitted calls Hkey Htruthy Hsubmit Hpoll
      | key submitted calls final calls' result Hkey Htruthy Hsubmit Hpoll Hdelivery ].
    + by apply elem_of_nil in Hin.
    + apply elem_of_cons in Hin as [?|Hin]; [done|]. by apply elem_of_nil in Hin.
    + apply elem_of_cons in Hin as [?|Hin]; [done|]. by eapply Hpoll_no_url in Hin.
    + apply elem_of_cons in Hin as [?|Hin]; [done|]. by eapply Hpoll_no_url in Hin.
    + apply elem_of_cons in Hin as [?|Hin]; [done|].
      apply elem_of_app in Hin as [Hin|Hin]; [by eapply Hpoll_no_url in Hin|].
      destruct Hdelivery as [| | |first rest videoUri calls' result ? ? ? ? Hdownload];
        try by apply elem_of_nil in Hin.
      destruct Hdownload;
        repeat (apply elem_of_cons in Hin as [Hin|Hin]; [simplify_eq|]);
        try by apply elem_of_nil in Hin.
      split; [done|].
      by rewrite app_comm_cons, last_app.
  - intros url Hurl.
    destruct Hrun as
      [ Hnokey
      | key r Hkey Htruthy Hsubmit
      | key submitted calls e Hkey Htruthy Hsubmit Hpoll
      | key submitted calls Hkey Htruthy Hsubmit Hpoll
      | key submitted calls final calls' result Hkey Htruthy Hsubmit Hpoll Hdelivery ];
      try discriminate.
    destruct Hdelivery as [| | |first rest videoUri calls' result ? ? ? ? Hdownload];
      try discriminate.
    destruct Hdownload as [| | |response b Hfetch Hok Hblob]; try discriminate.
    exists (CallGenerateVideos (payload request) :: calls),
      (downloadUrl videoUri (env_API_KEY w)), response, b.
    repeat split; try done. congruence.
Qed.

(** X4. The error check after the loop (line 87) can only fire for the
    handle the submission itself returned: when a call fails there, the
    submitted handle was done and carried the error, and the submission is the
    only thing that was awaited: no wait, no status call. *)
Theorem final_error_means_no_polling (w : World) (a : option GoogleGenAI)
    (fuel : nat) (request : GenerationRequest.t) (message : string) :
  fst (generateVideo w fuel request (start a)) =
    Throw (NewError FinalOperationError message) →
  log (snd (generateVideo w fuel request (start a))) =
    [CallGenerateVideos (payload request)] ∧
  ∃ key submitted err,
    env_API_KEY w = Some key ∧
    generateVideos w {| apiKey := key |} (payload request) = Fulfilled submitted ∧
    Js.truthy_flag (Operation.done submitted) = true ∧
    Operation.error submitted = Some err ∧
    message = operation_error_message err.
Proof.
  destruct (generateVideo_sound w fuel request (start a)) as (calls & -> & Hrun).
  simpl. intros Hresult.
  destruct Hrun as
    [ Hnokey
    | key r Hkey Htruthy Hsubmit
    | key submitted calls e Hkey Htruthy Hsubmit Hpoll
    | key submitted calls Hkey Htruthy Hsubmit Hpoll
    | key submitted calls final calls' result Hkey Htruthy Hsubmit Hpoll Hdelivery ];
    try discriminate.
  - apply PollRun_throws in Hpoll as [(r & -> & _)|[err ->]]; discriminate.
  - destruct Hdelivery as [err Herr| | |first rest videoUri calls' result ? ? ? ? Hdownload];
      try discriminate.
    2: { destruct Hdownload; discriminate. }
    pose proof (PollRun_normal_done w _ _ _ _ _ Hpoll) as Hdone.
    destruct (PollRun_normal_shape w _ _ _ _ _ Hpoll) as [[-> ->]|[_ Hnone]];
      [|congruence].
    split; [done|]. exists key, submitted, err. repeat split; try done. congruence.
Qed.

Lemma final_error_means_no_polling_witness :
  log (snd (generateVideo Scenario2.blocked_world 5 Scenario.lake (start None))) =
    [CallGenerateVideos (payload Scenario.lake)] ∧
  ∃ key submitted err,
    env_API_KEY Scenario2.blocked_world = Some key ∧
    generateVideos Scenario2.blocked_world {| apiKey := key |}
      (payload Scenario.lake) = Fulfilled submitted ∧
    Js.truthy_flag (Operation.done submitted) = true ∧
    Operation.error submitted = Some err ∧
    "prompt was blocked" = operation_error_message err.
Proof.
  apply (final_error_means_no_polling Scenario2.blocked_world None 5
           Scenario.lake "prompt was blocked").
  reflexivity.
Defined.

Lemma count_zero_not_in p (l : list Call) (x : Call) :
  count p l = 0 → p x = true → x ∉ l.
Proof.
  induction l as [|y l IH]; simpl; intros Hcount Hx Hin.
  - by apply elem_of_nil in Hin.
  - apply elem_of_cons in Hin as [<-|Hin].
    + rewrite Hx in Hcount. lia.
    + apply IH; [|done..]. destruct (p y); lia.
Qed.

(** Where the only call of its sort sits in a log. *)
Lemma split_at_only p (l1 l2 r1 r2 : list Call) (x y : Call) :
  l1 ++ x :: r1 = l2 ++ y :: r2 →
  p x = true → p y = true → count p l2 = 0 → count p r2 = 0 →
  l1 = l2 ∧ x = y ∧ r1 = r2.
Proof.
  revert l2. induction l1 as [|z l1 IH]; intros [|z' l2] Heq Hx Hy Hl2 Hr2;
    simpl in *.
  - by injection Heq as -> ->.
  - injection Heq as <- _. rewrite Hx in Hl2. lia.
  - injection Heq as -> <-.
    destruct (count_zero_not_in p (l1 ++ x :: r1) x Hr2 Hx).
    apply elem_of_app. right. by left.
  - injection Heq as <- Heq.
    destruct (IH l2 Heq Hx Hy) as (-> & -> & ->); [|done..].
    destruct (p z); lia.
Qed.

(** X5. When the response to the fetch a call made is not ok, the call fails
    with "Failed to download video: " followed by the status text of that
    response, and the fetch is the last thing it awaited: the body is never
    read and no object URL is made. *)
Theorem refused_download_reads_no_body (w : World) (a : option GoogleGenAI)
    (fuel : nat) (request : GenerationRequest.t)
    (front rest : list Call) (url : string) (response : Response.t) :
  log (snd (generateVideo w fuel request (start a))) =
    front ++ CallFetch url :: rest →
  fetch w url = Fulfilled response →
  Response.ok response = false →
  fst (generateVideo w fuel request (start a)) =
    Throw (NewError DownloadFailed
             ("Failed to download video: " +:+ Response.statusText response)) ∧
  rest = [] ∧
  Log.count Log.is_blob front = 0 ∧
  Log.count Log.is_createObjectURL front = 0.
Proof.
  destruct (generateVideo_sound w fuel request (start a)) as (calls & -> & Hrun).
  simpl. intros Hlog Hfetch Hok.
  assert (CallFetch url ∈ calls) as Hin.
  { rewrite Hlog. apply elem_of_app. right. by left. }
  destruct Hrun as
    [ Hnokey
    | key r Hkey Htruthy Hsubmit
    | key submitted calls e Hkey Htruthy Hsubmit Hpoll
    | key submitted calls Hkey Htruthy Hsubmit Hpoll
    | key submitted calls final calls' result Hkey Htruthy Hsubmit Hpoll Hdelivery ].
  - by apply elem_of_nil in Hin.
  - apply elem_of_cons in Hin as [Hin|Hin]; [done|]. by apply elem_of_nil in Hin.
  - apply elem_of_cons in Hin as [Hin|Hin]; [done|].
    by eapply PollRun_no_fetch in Hin.
  - apply elem_of_cons in Hin as [Hin|Hin]; [done|].
    by eapply PollRun_no_fetch in Hin.
  - apply PollRun_counts in Hpoll as (_ & _ & _ & Hnofetch & Hnoblob & Hnourl).
    destruct Hdelivery as [| | |first rest' videoUri calls' result ???? Hdownload].
    + rewrite app_nil_r in Hin.
      destruct (count_zero_not_in is_fetch
                  (CallGenerateVideos (payload request) :: calls)
                  (CallFetch url)); done.
    + rewrite app_nil_r in Hin.
      destruct (count_zero_not_in is_fetch
                  (CallGenerateVideos (payload request) :: calls)
                  (CallFetch url)); done.
    + rewrite app_nil_r in Hin.
      destruct (count_zero_not_in is_fetch
                  (CallGenerateVideos (payload request) :: calls)
                  (CallFetch url)); done.
    + assert (∃ tail,
                calls' = CallFetch (downloadUrl videoUri (env_API_KEY w)) :: tail ∧
                count is_fetch tail = 0) as (tail & -> & Htail).
      { destruct Hdownload; by eexists. }
      rewrite app_comm_cons in Hlog.
      destruct (split_at_only is_fetch _ _ _ _ _ _ (eq_sym Hlog))
        as (Hfront & Hurl & Hrest); try done.
      injection Hurl as Hurl. rewrite <- Hurl in Hdownload.
      rewrite Hfront, Hrest. clear Hlog Hin Hfront Hrest Hurl.
      inversion Hdownload as
        [ r Hr
        | response' Hresponse Hok'
        | response' r Hresponse Hok'
        | response' b Hresponse Hok' ]; subst.
      * congruence.
      * rewrite Hfetch in Hresponse. injection Hresponse as <-.
        repeat split; simpl; done.
      * rewrite Hfetch in Hresponse. injection Hresponse as <-. congruence.
      * rewrite Hfetch in Hresponse. injection Hresponse as <-. congruence.
Qed.

Lemma refused_download_reads_no_body_witness :
  fst (generateVideo Scenario2.forbidden_world 5 Scenario.lake (start None)) =
    Throw (NewError DownloadFailed "Failed to download video: Forbidden").
Proof.
  apply (refused_download_reads_no_body Scenario2.forbidden_world None 5
           Scenario.lake
           [CallGenerateVideos (payload Scenario.lake);
            CallWait 5000; CallGetVideosOperation Scenario.pending_operation;
            CallWait 5000; CallGetVideosOperation Scenario.pending_operation]
           [] "https://videos.example/lake.mp4?alt=media&key=KEY"
           (Response.mk false "Forbidden" Scenario.lake_bytes));
    reflexivity.
Defined.

Lemma object_url_made_iff_returned_witness :
  fst (generateVideo Scenario.lake_world 2 Scenario.lake (start None)) =
    Normal (createObjectURL Scenario.lake_world Scenario.lake_bytes) ∧
  last (log (snd (generateVideo Scenario.lake_world 2 Scenario.lake (start None)))) =
    Some (CallCreateObjectURL Scenario.lake_bytes).
Proof.
  apply (proj1 (object_url_made_iff_returned Scenario.lake_world None 2
                  Scenario.lake)).
  vm_compute. do 7 apply list_elem_of_further. apply list_elem_of_here.
Defined.

(** X6. A first result whose URI is the empty string is treated like a
    missing URI: the call fails with "Video URI is missing." and fetches
    nothing. *)
Theorem empty_uri_is_missing (w : World) (a : option GoogleGenAI)
    (fuel : nat) (request : GenerationRequest.t) (key : string)
    (submitted final : Operation.t) (first : GeneratedVideo)
    (rest : list GeneratedVideo) (s2 : State) :
  env_API_KEY w = Some key → Js.truthy key = true →
  generateVideos w {| apiKey := key |} (payload request) = Fulfilled submitted →
  poll w {| apiKey := key |} fuel submitted
    (logged (start (Some {| apiKey := key |})) [CallGenerateVideos (payload request)])
    = (Normal final, s2) →
  Operation.error final = None →
  response_generatedVideos final = Some (first :: rest) →
  video_uri first = Some EmptyString →
  generateVideo w fuel request (start a) =
    (Throw (NewError VideoUriMissing "Video URI is missing."), s2).
Proof.
  intros Hkey Htruthy Hsubmit Hpoll Herr Hvideos Huri.
  rewrite (generateVideo_with_key w _ _ _ key) by done. cbv zeta.
  rewrite Hsubmit.
  change (logged {| ai := _; log := log (start a); statusCalls := _ |} _)
    with (logged (start (Some {| apiKey := key |}))
            [CallGenerateVideos (payload request)]).
  rewrite Hpoll. unfold deliver. by rewrite Herr, Hvideos, Huri.
Qed.

Lemma empty_uri_is_missing_witness :
  generateVideo Scenario2.blank_uri_world 5 Scenario.lake (start None) =
    (Throw (NewError VideoUriMissing "Video URI is missing."),
     logged (start (Some {| apiKey := "KEY" |}))
       [CallGenerateVideos (payload Scenario.lake)]).
Proof.
  apply (empty_uri_is_missing Scenario2.blank_uri_world None 5 Scenario.lake "KEY"
           (Scenario.finished_operation
              [{| video := Some {| uri := Some EmptyString |} |}])
           (Scenario.finished_operation
              [{| video := Some {| uri := Some EmptyString |} |}])
           {| video := Some {| uri := Some EmptyString |} |} []);
    reflexivity.
Defined.

(** X7. Every call that finds a usable key makes a new client from it: after
    the call the [ai] field holds a client with the key of the environment,
    whatever it held before, and neither the outcome of the call nor what it
    awaits depends on what the field held. *)
Theorem client_made_anew (w : World) (fuel : nat) (request : GenerationRequest.t)
    (a a' : option GoogleGenAI) (key : string) :
  env_API_KEY w = Some key → Js.truthy key = true →
  ai (snd (generateVideo w fuel request (start a))) = Some {| apiKey := key |} ∧
  generateVideo w fuel request (start a) = generateVideo w fuel request (start a').
Proof.
  intros Hkey Htruthy.
  rewrite !(generateVideo_with_key w _ _ _ key) by done. cbv zeta.
  split; [|done].
  set (c := {| apiKey := key |}). set (s1 := logged _ _).
  destruct (generateVideos w c (payload request)) as [operation|r]; [|done].
  destruct (poll_sound w c fuel operation s1) as (calls & Hs2 & _).
  destruct (poll w c fuel operation s1) as [[final|e|] s2]; simpl in *; subst s2;
    try done.
  destruct (deliver_sound w final (logged s1 calls)) as (calls' & -> & _). done.
Qed.

Lemma client_made_anew_witness :
  ai (snd (generateVideo Scenario.lake_world 2 Scenario.lake
             (start (Some {| apiKey := "OLD" |})))) = Some {| apiKey := "KEY" |} ∧
  generateVideo Scenario.lake_world 2 Scenario.lake
    (start (Some {| apiKey := "OLD" |})) =
  generateVideo Scenario.lake_world 2 Scenario.lake (start None).
Proof.
  apply (client_made_anew Scenario.lake_world 2 Scenario.lake
           (Some {| apiKey := "OLD" |}) None "KEY"); reflexivity.
Defined.

Lemma poll_more_fuel (w : World) c fuel extra operation s :
  fst (poll w c fuel operation s) ≠ Unsettled →
  poll w c (fuel + extra) operation s = poll w c fuel operation s.
Proof.
  revert operation s. induction fuel as [|fuel IH]; intros operation s;
    destruct (Js.truthy_flag (Operation.done operation)) eqn:Hdone;
    try (rewrite !poll_done by done; done).
  - by rewrite poll_out_of_fuel.
  - change (S fuel + extra) with (S (fuel + extra)).
    rewrite !poll_round by done. cbv zeta.
    destruct (getVideosOperation w c (statusCalls s) operation)
      as [operation'|r]; [|done].
    destruct (Operation.error operation'); [done|]. apply IH.
Qed.

Lemma Resolution_value_inj r r' :
  Resolution_value r = Resolution_value r' → r = r'.
Proof. by destruct r, r'. Qed.

Lemma AspectRatio_value_inj r r' :
  AspectRatio_value r = AspectRatio_value r' → r = r'.
Proof. by destruct r, r'. Qed.

Lemma JObj_inj (o o' : gmap string Js.Value) :
  Some (Js.JObj o) = Some (Js.JObj o') → o = o'.
Proof. by intros [=]. Qed.

Ltac lookups H :=
  repeat first
    [ rewrite lookup_insert_eq in H
    | rewrite lookup_insert_ne in H by done
    | rewrite lookup_empty in H ].

Lemma generateConfig_inj config config' :
  generateConfig config = generateConfig config' → config = config'.
Proof.
  intros Heq.
  pose proof (f_equal (lookup "resolution") Heq) as Hres.
  pose proof (f_equal (lookup "aspectRatio") Heq) as Hratio.
  unfold generateConfig, Js.object in Hres, Hratio. simpl in Hres, Hratio.
  lookups Hres. lookups Hratio.
  destruct config, config'. simpl in *.
  f_equal.
  - apply AspectRatio_value_inj. congruence.
  - apply Resolution_value_inj. congruence.
Qed.

(** X9. Nothing of a request is lost on the way to the vendor: two requests
    that are sent as the same object are the same request (same prompt, same
    image bytes and type or both none, same aspect ratio and resolution). *)
Theorem payload_injective (request request' : GenerationRequest.t) :
  payload request = payload request' → request = request'.
Proof.
  intros Heq.
  pose proof (f_equal (lookup "prompt") Heq) as Hprompt.
  pose proof (f_equal (lookup "config") Heq) as Hconfig.
  pose proof (f_equal (lookup "image") Heq) as Himage.
  destruct request as [prompt image config], request' as [prompt' image' config'].
  unfold payload, Js.object in Hprompt, Hconfig, Himage.
  destruct image as [image|], image' as [image'|]; simpl in *;
    lookups Hprompt; lookups Hconfig; lookups Himage; try discriminate.
  - f_equal; [congruence | | by apply generateConfig_inj, JObj_inj].
    apply JObj_inj in Himage.
    pose proof (f_equal (lookup "imageBytes") Himage) as Hbytes.
    pose proof (f_equal (lookup "mimeType") Himage) as Hmime.
    simpl in Hbytes, Hmime.
    unfold Js.object in Hbytes, Hmime. simpl in Hbytes, Hmime.
    lookups Hbytes. lookups Hmime.
    destruct image as [d m], image' as [d' m']. simpl in *.
    f_equal. f_equal; [congruence|].
    destruct m, m'; simpl in Hmime; congruence.
  - f_equal; [congruence | by apply generateConfig_inj, JObj_inj].
Qed.

Lemma payload_injective_witness :
  Scenario.lake = GenerationRequest.mk "a calm lake at sunset" None
                    Scenario.landscape_720p.
Proof.
  apply (payload_injective Scenario.lake
           (GenerationRequest.mk "a calm lake at sunset" None
              Scenario.landscape_720p)).
  reflexivity.
Defined.

End GeminiServiceMore.

(** ** More about the message store *)

Module AppMore.
Import Types Vendor App AppFacts Sessions.

Lemma fmap_touch_unsettled (l : list Message.t) :
  touch "" GeminiService.Unsettled <$> l = l.
Proof.
  induction l as [|msg l IH]; [done|].
  rewrite fmap_cons, IH. unfold touch. simpl. by destruct (String.eqb _ _).
Qed.

(** What an event does to the list: it maps the continuation of some call
    over it, then appends the messages of a submission. *)
Lemma step_shape e s :
  ∃ result a,
    messages (app (step e s)) =
    (touch a result <$> messages (app s)) ++ appended e s.
Proof.
  destruct e as [studio key|studio|text image mime config clock|call result]; simpl.
  - exists GeminiService.Unsettled, "".
    rewrite fmap_touch_unsettled, app_nil_r.
    unfold checkApiKey. destruct studio as [studio|].
    + by destruct (hasSelectedApiKey studio).
    + by destruct (Js.truthy_opt key).
  - exists GeminiService.Unsettled, "".
    rewrite fmap_touch_unsettled, app_nil_r.
    unfold handleSelectKey. destruct studio as [studio|]; [|done].
    by destruct (openSelectKey studio).
  - exists GeminiService.Unsettled, "". rewrite fmap_touch_unsettled.
    unfold handleSendMessage_submit.
    destruct (apiKeySet (app s)); simpl; [done | by rewrite app_nil_r].
  - destruct (calls s !! call) as [[a [|]]|]; simpl;
      try (exists GeminiService.Unsettled, "";
           by rewrite fmap_touch_unsettled, app_nil_r).
    destruct (settled_result result); simpl.
    + exists result, a. by rewrite settle_messages, app_nil_r.
    + exists GeminiService.Unsettled, "".
      by rewrite fmap_touch_unsettled, app_nil_r.
Qed.

Lemma touch_role a result msg :
  Message.role (touch a result msg) = Message.role msg.
Proof. unfold touch. destruct (String.eqb _ _); [by destruct result | done]. Qed.

Lemma role_at_shift i : role_at (S (S i)) = role_at i.
Proof. done. Qed.

Lemma roles_step e s :
  (∃ n, length (messages (app s)) = 2 * n + 1) →
  (∀ i msg, messages (app s) !! i = Some msg → Message.role msg = role_at i) →
  (∃ n, length (messages (app (step e s))) = 2 * n + 1) ∧
  (∀ i msg, messages (app (step e s)) !! i = Some msg →
            Message.role msg = role_at i).
Proof.
  intros [n Hlen] Hroles.
  destruct (step_shape e s) as (result & a & ->).
  assert (appended e s = [] ∨
          ∃ u p, appended e s = [u; p] ∧
                 Message.role u = user ∧ Message.role p = agent) as Happended.
  { destruct e; simpl; auto. destruct (apiKeySet (app s)); [|auto].
    right. by eexists _, _. }
  split.
  - rewrite length_app, length_fmap, Hlen.
    destruct Happended as [->|(u & p & -> & _)]; simpl.
    + exists n. lia.
    + exists (S n). lia.
  - intros i msg Hi. apply lookup_app_Some in Hi as [Hi|[Hge Hi]].
    + rewrite list_lookup_fmap in Hi.
      destruct (messages (app s) !! i) as [msg'|] eqn:Hmsg'; [|done].
      simpl in Hi. simplify_eq. rewrite touch_role. by apply Hroles.
    + rewrite length_fmap, Hlen in Hge, Hi.
      destruct Happended as [Hnone|(u & p & Happ & Hu & Hp)];
        rewrite ?Hnone, ?Happ in Hi.
      { by rewrite lookup_nil in Hi. }
      assert (Nat.even (2 * n + 1) = false) as Hodd.
      { rewrite Nat.add_1_r, Nat.even_succ, <- Nat.negb_even.
        by rewrite Nat.even_mul. }
      destruct (i - (2 * n + 1)) as [|[|k]] eqn:Hk; simpl in Hi; simplify_eq.
      * replace i with (2 * n + 1) by lia. unfold role_at. by rewrite Hodd.
      * replace i with (S (2 * n + 1)) by lia.
        unfold role_at. rewrite Nat.even_succ, <- Nat.negb_even, Hodd. done.
Qed.

(** X10. In every session the list has an odd number of messages and the
    roles alternate: the agent's welcome message first, then for each
    submission the user's message followed by the agent's. *)
Theorem roles_alternate (now : Z) (events : list Event) :
  let l := messages (app (run events (mounted now))) in
  (∃ n, length l = 2 * n + 1) ∧
  (∀ i msg, l !! i = Some msg → Message.role msg = role_at i).
Proof.
  cbv zeta.
  assert (∀ s,
    (∃ n, length (messages (app s)) = 2 * n + 1) →
    (∀ i msg, messages (app s) !! i = Some msg → Message.role msg = role_at i) →
    (∃ n, length (messages (app (run events s))) = 2 * n + 1) ∧
    (∀ i msg, messages (app (run events s)) !! i = Some msg →
              Message.role msg = role_at i)) as Hrun.
  { induction events as [|e events IH]; intros s Hlen Hroles; [done|].
    rewrite run_cons. destruct (roles_step e s Hlen Hroles). by apply IH. }
  apply Hrun.
  - by exists 0.
  - intros [|i] msg Hi; simpl in Hi; [by simplify_eq | done].
Qed.

Lemma roles_alternate_witness :
  Message.role (newAgentMessage (Scenario.clock_at 2000)) = role_at 4.
Proof.
  apply (proj2 (roles_alternate 0
                  (Scenario.first_call 1000 ++
                   take 2 (Scenario.then_second_call 2000)))).
  reflexivity.
Defined.

(** *** Ids when the clock moves on *)

Lemma is_digit_pretty_N_char x : is_digit (pretty_N_char x) = true.
Proof. unfold pretty_N_char. by repeat case_match. Qed.

Lemma pretty_N_go_digits x s :
  all_digits s = true → all_digits (pretty_N_go x s) = true.
Proof.
  revert s. induction (N.lt_wf_0 x) as [x _ IH]; intros s Hs.
  assert (x = 0 ∨ 0 < x)%N as [->|?] by lia.
  - by rewrite pretty_N_go_0.
  - rewrite pretty_N_go_step by done. apply IH.
    { by apply N.div_lt. }
    simpl. by rewrite is_digit_pretty_N_char.
Qed.

(** No number is written as the id of the welcome message. *)
Lemma toString_ne_welcome (n : Z) : Js.toString n ≠ "welcome".
Proof.
  unfold Js.toString, pretty, pretty_Z. destruct n as [|p|p]; [done| |].
  - unfold pretty, pretty_positive, pretty, pretty_N.
    destruct (decide _) as [|_]; [done|]. intros H.
    pose proof (pretty_N_go_digits (N.pos p) "" eq_refl) as Hdigits.
    rewrite H in Hdigits. discriminate.
  - assert ("-" +:+ pretty p = String (Ascii.ascii_of_nat 45) (pretty p)) as ->
      by reflexivity.
    intros [=].
Qed.

Lemma step_ids e s :
  Message.id <$> messages (app (step e s)) =
  (Message.id <$> messages (app s)) ++ (Message.id <$> appended e s).
Proof.
  destruct (step_shape e s) as (result & a & ->).
  by rewrite fmap_app, touch_ids.
Qed.

Lemma ids_below_run events :
  ∀ last s, ids_below last s → spaced last events s →
            ∃ last', ids_below last' (run events s).
Proof.
  induction events as [|e events IH]; intros last s Hids Hspaced.
  { by exists last. }
  rewrite run_cons.
  assert (appended e s = [] ∧ spaced last events (step e s) ∨
          ∃ text image mime config clock,
            e = Send text image mime config clock ∧
            apiKeySet (app s) = true ∧
            (last < now_64 clock ≤ now_73 clock)%Z ∧
            spaced (now_73 clock + 1) events (step e s)) as Hcases.
  { destruct e as [| |text image mime config clock|]; simpl in *; auto.
    destruct (apiKeySet (app s)) eqn:Hset; [|auto].
    right. destruct Hspaced. by eexists _, _, _, _, _. }
  destruct Hcases as [[Hnone Hrest]
                     |(text & image & mime & config & clock & -> & Hset & Hclock & Hrest)].
  - apply (IH last); [|done].
    destruct Hids as (nums & Hnums & Hnodup & Hle). exists nums.
    by rewrite step_ids, Hnone, app_nil_r.
  - apply (IH (now_73 clock + 1)%Z); [|done].
    destruct Hids as (nums & Hnums & Hnodup & Hle).
    exists (nums ++ [now_64 clock; (now_73 clock + 1)%Z]).
    rewrite Forall_forall in Hle. split; [|split].
    + rewrite step_ids, Hnums. simpl. rewrite Hset. simpl.
      by rewrite fmap_app.
    + apply NoDup_app. split; [done|]. split.
      * intros n Hn Hin. apply Hle in Hn.
        apply elem_of_cons in Hin as [->|Hin]; [lia|].
        apply list_elem_of_singleton in Hin as ->. lia.
      * apply NoDup_cons. split; [|apply NoDup_singleton].
        intros Hin. apply list_elem_of_singleton in Hin. lia.
    + apply Forall_app. split.
      * apply Forall_forall. intros n Hn. apply Hle in Hn. lia.
      * repeat constructor; lia.
Qed.

(** X11. When the clock moves on between submissions (each reads, at line 64,
    a later millisecond than any an id was made of before, and no earlier
    one at line 73), no two messages of the session share an id. *)
Theorem spaced_clock_distinct_ids (now last : Z) (events : list Event) :
  spaced last events (mounted now) →
  NoDup (Message.id <$> messages (app (run events (mounted now)))).
Proof.
  intros Hspaced.
  destruct (ids_below_run events last (mounted now)) as (last' & nums & -> & Hnodup & _);
    [|done|].
  { exists []. repeat split; constructor. }
  apply NoDup_cons. split.
  - intros Hin. apply list_elem_of_fmap in Hin as (n & Heq & _).
    by destruct (toString_ne_welcome n).
  - assert (Inj (=) (=) Js.toString) by (intros m n; apply JsFacts.toString_inj).
    by apply (NoDup_fmap_2 Js.toString).
Qed.

Lemma spaced_clock_distinct_ids_witness :
  NoDup (Message.id <$>
         messages (app (run (Scenario.first_call 1000 ++
                             Scenario.then_second_call 2000) (mounted 0)))).
Proof.
  apply (spaced_clock_distinct_ids 0 0). simpl. lia.
Defined.

(** *** A whole call *)

Lemma or_else_truthy (a : option string) (d : string) :
  Js.truthy d = true → Js.truthy (Js.or_else a d) = true.
Proof.
  intros Hd. unfold Js.or_else. destruct a as [t|]; [|done].
  by destruct (Js.truthy t) eqn:Ht.
Qed.

(** A call settles once the vendor stops answering "not done". *)
Lemma generateVideo_settles (w : GeminiService.World) (fuel N : nat)
    (request : GenerationRequest.t) (s : GeminiService.State) :
  GeminiService.statusCalls s = 0 →
  (∀ c, GeminiService.done_from w c N) → N < fuel →
  fst (GeminiService.generateVideo w fuel request s) ≠ GeminiService.Unsettled.
Proof.
  intros Hzero Hvendor Hfuel.
  destruct (Js.truthy_opt (GeminiService.env_API_KEY w)) eqn:Htruthy.
  2: { by rewrite GeminiServiceFacts.generateVideo_without_key. }
  destruct (GeminiService.env_API_KEY w) as [key|] eqn:Hkey; [|done].
  simpl in Htruthy.
  rewrite (GeminiServiceFacts.generateVideo_with_key w _ _ _ key) by done.
  cbv zeta.
  destruct (GeminiService.generateVideos w _ _) as [operation|r]; [|done].
  match goal with |- context [GeminiService.poll w ?c fuel operation ?s1] =>
    pose proof (GeminiServiceFacts.poll_settles w c N fuel operation s1 (Hvendor c))
      as Hsettles;
    destruct (GeminiService.poll w c fuel operation s1) as [[final|e|] s2] end;
    simpl in *.
  - destruct (GeminiServiceFacts.deliver_sound w final s2) as (calls & _ & Hdelivery).
    by eapply GeminiServiceFacts.Delivery_settled.
  - done.
  - intros _. apply Hsettles; [lia | lia | done].
Qed.

(** X12. A whole call made while the key-ready flag is set, against a vendor
    that stops answering "not done", ends settled: the list has grown by two
    messages, the last of them is the agent's placeholder, now either
    complete with the URL the client returned or in error with a non-empty
    text, and the processing flag is cleared again. *)
Theorem whole_call_ends_settled (w : GeminiService.World) (fuel N : nat)
    (text : string) (imageBase64 mimeType : option string)
    (config : GenerationConfig) (clock : Clock) (st : State) :
  apiKeySet st = true →
  (∀ c, GeminiService.done_from w c N) → N < fuel →
  let result :=
    fst (GeminiService.generateVideo w fuel
           (request text imageBase64 mimeType config) (GeminiService.fresh w)) in
  let st' := handleSendMessage w fuel text imageBase64 mimeType config clock st in
  isProcessing st' = false ∧
  length (messages st') = length (messages st) + 2 ∧
  ∃ msg,
    last (messages st') = Some msg ∧
    Message.id msg = agentMessageId clock ∧
    Message.role msg = agent ∧
    Message.timestamp msg = now_78 clock ∧
    ((∃ url, result = GeminiService.Normal url ∧
             Message.status msg = Some complete ∧
             Message.videoUrl msg = Some url) ∨
     (∃ e t, result = GeminiService.Throw e ∧
             Message.status msg = Some error ∧
             Message.error msg = Some t ∧ Js.truthy t = true)).
Proof.
  intros Hset Hvendor Hfuel. cbv zeta.
  pose proof (generateVideo_settles w fuel N
                (request text imageBase64 mimeType config)
                (GeminiService.fresh w) eq_refl Hvendor Hfuel) as Hsettled.
  unfold handleSendMessage, handleSendMessage_submit. rewrite Hset. simpl.
  set (result := fst (GeminiService.generateVideo _ _ _ _)) in *.
  split; [by destruct result|].
  rewrite settle_messages. simpl.
  split; [by rewrite length_fmap, length_app|].
  exists (resolved result (newAgentMessage clock)).
  split.
  { rewrite fmap_app, last_app. simpl.
    by rewrite (touch_same _ _ (newAgentMessage clock)). }
  rewrite resolved_id.
  destruct result as [url|e|]; [| |done]; simpl.
  - repeat split; try done. left. by exists url.
  - repeat split; try done. right. eexists e, _.
    repeat split; try done. by apply or_else_truthy.
Qed.

Lemma whole_call_ends_settled_witness :
  isProcessing
    (handleSendMessage Scenario.lake_world 2 "a calm lake at sunset" None None
       Scenario.landscape_720p (Scenario.clock_at 1000) Scenario2.ready) = false.
Proof.
  apply (whole_call_ends_settled Scenario.lake_world 2 1).
  - reflexivity.
  - apply GeminiServiceFacts.lake_world_done_from.
  - lia.
Defined.

(** X13. When the service finds no usable key although the key-ready flag is
    set, the call ends with the placeholder in error, showing the client's
    own "API Key not found" text; that text is not one the test of line 107
    looks for, so the flag stays set and the user is not sent back to the
    key prompt. *)
Theorem missing_key_error_keeps_flag (w : GeminiService.World) (fuel : nat)
    (text : string) (imageBase64 mimeType : option string)
    (config : GenerationConfig) (clock : Clock) (st : State) :
  apiKeySet st = true →
  Js.truthy_opt (GeminiService.env_API_KEY w) = false →
  let st' := handleSendMessage w fuel text imageBase64 mimeType config clock st in
  apiKeySet st' = true ∧
  isProcessing st' = false ∧
  last (messages st') =
    Some (Message.mk (agentMessageId clock) agent None None None (Some error)
            (Some "API Key not found. Please select a key.") (now_78 clock)).
Proof.
  intros Hset Hkey. cbv zeta.
  unfold handleSendMessage, handleSendMessage_submit. rewrite Hset. simpl.
  rewrite GeminiServiceFacts.generateVideo_without_key by done.
  split; [|split]; [done..|].
  rewrite settle_messages. simpl.
  rewrite fmap_app, last_app. simpl.
  by rewrite (touch_same _ _ (newAgentMessage clock)).
Qed.

Lemma missing_key_error_keeps_flag_witness :
  apiKeySet
    (handleSendMessage Scenario2.keyless_world 2 "a calm lake at sunset" None None
       Scenario.landscape_720p (Scenario.clock_at 1000) Scenario2.ready) = true.
Proof.
  apply (missing_key_error_keeps_flag Scenario2.keyless_world 2); reflexivity.
Defined.

(** X14. After a failure that the test of line 107 takes for a credential
    error, [handleSendMessage] does nothing at all (no message is added, no
    call is made) until the key-ready flag is set again; [handleSelectKey]
    sets it when the selection dialog resolves, keeping the messages, and
    leaves everything as it was when there is no dialog or it rejects. *)
Theorem key_error_blocks_until_selected (a : string) (e : GeminiService.Thrown)
    (st : State) (text : string) (imageBase64 mimeType : option string)
    (config : GenerationConfig) (clock : Clock) :
  is_key_error (GeminiService.thrown_message e) = true →
  let st' := handleSendMessage_settle a (GeminiService.Throw e) st in
  handleSendMessage_submit text imageBase64 mimeType config clock st' = (st', None) ∧
  handleSelectKey None st' = st' ∧
  (∀ studio r, openSelectKey studio = Rejected r →
               handleSelectKey (Some studio) st' = st') ∧
  (∀ studio u, openSelectKey studio = Fulfilled u →
     let st'' := handleSelectKey (Some studio) st' in
     messages st'' = messages st' ∧
     ∃ started,
       handleSendMessage_submit text imageBase64 mimeType config clock st''
       = (started,
          Some (agentMessageId clock, request text imageBase64 mimeType config)) ∧
       messages started =
         messages st' ++ [newUserMessage text imageBase64 clock;
                          newAgentMessage clock]).
Proof.
  intros Hkey. cbv zeta. simpl. rewrite Hkey.
  split; [done|]. split; [done|]. split.
  - intros studio r Hr. unfold handleSelectKey. by rewrite Hr.
  - intros studio u Hu. unfold handleSelectKey. rewrite Hu. simpl.
    split; [done|]. by eexists.
Qed.

Lemma key_error_blocks_until_selected_witness :
  let st' :=
    handleSendMessage_settle "1001"
      (GeminiService.Throw
         (GeminiService.NewError GeminiService.PollingOperationError
            "API key not valid. Please pass a valid API key."))
      Scenario2.ready in
  handleSendMessage_submit "again" None None Scenario.landscape_720p
    (Scenario.clock_at 3000) st' = (st', None).
Proof.
  apply (key_error_blocks_until_selected "1001"
           (GeminiService.NewError GeminiService.PollingOperationError
              "API key not valid. Please pass a valid API key.")
           Scenario2.ready).
  reflexivity.
Defined.

End AppMore.

(** ** The page *)

Module PageFacts.
Import Types Vendor App AppFacts Sessions.

Lemma in_flight_has_run (l : list (string * bool)) :
  Forall has_run l → List.filter (λ c, negb (snd c)) l = [].
Proof.
  induction 1 as [|[a b] l Hb _ IH]; [done|].
  simpl. unfold has_run in Hb. simpl in Hb. by rewrite Hb.
Qed.

(** A disabled input component sends nothing. *)
Lemma disabled_sends_nothing e input args :
  snd (ChatInput.step true e input) ≠ ChatInput.OnSendMessage args.
Proof.
  destruct e as [value|[[type [result|]]|]| | | | |key shiftKey|]; simpl; try done.
  - by destruct (negb _).
  - by destruct (negb _).
Qed.

Lemma perform_snoc actions a s :
  Page.perform (actions ++ [a]) s = Page.act a (Page.perform actions s).
Proof. unfold Page.perform. by rewrite fold_left_app. Qed.

Lemma send_one_in_flight text image mime config clock s :
  apiKeySet (app s) = true → isProcessing (app s) = false →
  one_in_flight s → one_in_flight (step (Send text image mime config clock) s).
Proof.
  unfold one_in_flight. intros Hset Hidle Hinv. rewrite Hidle in Hinv.
  simpl. unfold handleSendMessage_submit. rewrite Hset. simpl.
  exists (calls s), (agentMessageId clock), (newAgentMessage clock).
  repeat split; [done|]. by rewrite last_app.
Qed.

Lemma settle_one_in_flight call result s :
  one_in_flight s → one_in_flight (step (Settle call result) s).
Proof.
  unfold one_in_flight. intros Hinv. simpl.
  destruct (calls s !! call) as [[a' [|]]|] eqn:Hcall; [done| |done].
  destruct (settled_result result) eqn:Hsettled; [|done].
  destruct (isProcessing (app s)) eqn:Hbusy.
  - destruct Hinv as (front & a & msg & Hcalls & Hfront & _).
    assert (call = length front ∧ a' = a) as [-> ->].
    { rewrite Hcalls in Hcall. apply lookup_app_Some in Hcall as [Hcall|[Hge Hcall]].
      - rewrite Forall_lookup in Hfront. by specialize (Hfront _ _ Hcall).
      - destruct (call - length front) as [|k] eqn:Hk; simpl in Hcall; [|done].
        simplify_eq. split; [lia | done]. }
    assert (isProcessing (handleSendMessage_settle a result (app s)) = false)
      as Hidle by by destruct result.
    simpl. rewrite Hidle, Hcalls.
    replace (length front) with (length front + 0) by lia.
    rewrite insert_app_r. simpl.
    apply Forall_app. split; [done|]. by repeat constructor.
  - rewrite Forall_lookup in Hinv. by specialize (Hinv _ _ Hcall).
Qed.

Lemma act_one_in_flight a s : one_in_flight s → one_in_flight (Page.act a s).
Proof.
  intros Hinv. unfold Page.act.
  destruct a as [studio key|studio|input e clock|call result]; simpl.
  - unfold one_in_flight in *. simpl.
    unfold checkApiKey. destruct studio as [studio|].
    + by destruct (hasSelectedApiKey studio).
    + by destruct (Js.truthy_opt key).
  - unfold one_in_flight in *. simpl.
    unfold handleSelectKey. destruct studio as [studio|]; [|done].
    by destruct (openSelectKey studio).
  - destruct (apiKeySet (app s)) eqn:Hset; [|done].
    destruct (isProcessing (app s)) eqn:Hbusy.
    + pose proof (disabled_sends_nothing e input) as Hnothing.
      destruct (snd (ChatInput.step true e input)) as [| |args]; [done..|].
      by destruct (Hnothing args).
    + destruct (snd (ChatInput.step false e input)) as [| |args]; [done..|].
      by apply send_one_in_flight.
  - by apply settle_one_in_flight.
Qed.

Lemma perform_one_in_flight actions s :
  one_in_flight s → one_in_flight (Page.perform actions s).
Proof.
  revert s. induction actions as [|a actions IH]; intros s Hinv; [done|].
  simpl. by apply IH, act_one_in_flight.
Qed.

(** X15. On the page (the input component is shown only while the key-ready
    flag is set and is disabled while [isProcessing] is set) at most one call
    is in flight, and exactly while [isProcessing] is set: it is the call
    made last, and its placeholder is the last message of the list, still in
    status generating. *)
Theorem one_call_in_flight (now : Z) (actions : list Page.Action) :
  let s := Page.perform actions (mounted now) in
  if isProcessing (app s) then
    ∃ front a msg,
      calls s = front ++ [(a, false)] ∧
      Page.in_flight s = [(a, false)] ∧
      last (messages (app s)) = Some msg ∧
      Message.id msg = a ∧ Message.status msg = Some generating
  else Page.in_flight s = [].
Proof.
  cbv zeta.
  assert (one_in_flight (Page.perform actions (mounted now))) as Hinv.
  { apply perform_one_in_flight. unfold one_in_flight. simpl. constructor. }
  unfold one_in_flight in Hinv. unfold Page.in_flight.
  destruct (isProcessing _).
  - destruct Hinv as (front & a & msg & Hcalls & Hfront & Hlast & Hid & Hstatus).
    exists front, a, msg. repeat split; try done.
    rewrite Hcalls, List.filter_app, in_flight_has_run by done. done.
  - by apply in_flight_has_run.
Qed.

(** X16. On the page no continuation ever changes a message it was not made
    for: every settlement that is taken changes exactly the last message of
    the list, the placeholder of the call in flight, and clears the
    processing flag. *)
Theorem settlement_changes_last_message (now : Z) (actions : list Page.Action)
    (call : nat) (result : GeminiService.Completion string) :
  let s := Page.perform actions (mounted now) in
  let s' := Page.act (Page.Settle call result) s in
  s' ≠ s →
  isProcessing (app s) = true ∧ isProcessing (app s') = false ∧
  call + 1 = length (calls s) ∧
  ∃ front msg,
    messages (app s) = front ++ [msg] ∧
    Message.status msg = Some generating ∧
    messages (app s') = (touch (Message.id msg) result <$> front)
                        ++ [resolved result msg].
Proof.
  cbv zeta. intros Hchanged.
  assert (one_in_flight (Page.perform actions (mounted now))) as Hinv.
  { apply perform_one_in_flight. unfold one_in_flight. simpl. constructor. }
  set (s := Page.perform actions (mounted now)) in *.
  unfold Page.act in *. simpl in *.
  destruct (calls s !! call) as [[a' [|]]|] eqn:Hcall; [done| |done].
  destruct (settled_result result) eqn:Hsettled; [|done].
  unfold one_in_flight in Hinv.
  destruct (isProcessing (app s)) eqn:Hbusy.
  2: { rewrite Forall_lookup in Hinv. by specialize (Hinv _ _ Hcall). }
  destruct Hinv as (front & a & msg & Hcalls & Hfront & Hlast & Hid & Hstatus).
  assert (call = length front ∧ a' = a) as [-> ->].
  { rewrite Hcalls in Hcall. apply lookup_app_Some in Hcall as [Hcall|[Hge Hcall]].
    - rewrite Forall_lookup in Hfront. by specialize (Hfront _ _ Hcall).
    - destruct (call - length front) as [|k] eqn:Hk; simpl in Hcall; [|done].
      simplify_eq. split; [lia | done]. }
  simpl. split; [done|]. split; [by destruct result|].
  split; [by rewrite Hcalls, length_app|].
  apply last_Some in Hlast as [before Hmessages].
  exists before, msg. split; [done|]. split; [done|].
  rewrite settle_messages, Hmessages, fmap_app. simpl.
  by rewrite Hid, (touch_same a result msg).
Qed.

Lemma settlement_changes_last_message_witness :
  isProcessing
    (app (Page.perform
            [Page.MountCheck (Some Scenario.studio) None;
             Page.Input Scenario2.with_picture ChatInput.ClickSend
               (Scenario.clock_at 1000)]
            (mounted 0))) = true.
Proof.
  apply (settlement_changes_last_message 0
           [Page.MountCheck (Some Scenario.studio) None;
            Page.Input Scenario2.with_picture ChatInput.ClickSend
              (Scenario.clock_at 1000)]
           0 (GeminiService.Normal "blob:lake")).
  discriminate.
Defined.

End PageFacts.

(** ** The input component *)

Module ChatInputFacts.
Import Types Sessions JsFacts.

Lemma truthy_false (s : string) : Js.truthy s = false ↔ s = EmptyString.
Proof. unfold Js.truthy. by destruct s. Qed.

(** One step of [trimStart]: either nothing is stripped at the front, and
    then the text is not blank unless it is empty, or one character of white
    space is. *)
Lemma trimStart_step (s : string) :
  (JsString.trimStart s = s ∧ (blank s = true → s = EmptyString)) ∨
  (∃ s', String.length s' < String.length s ∧
         JsString.trimStart s = JsString.trimStart s' ∧ blank s = blank s').
Proof.
  destruct s as [|c1 s1]; [by left|]. simpl.
  destruct (JsString.isWhiteSpace1 c1).
  { right. exists s1. simpl. split; [lia | done]. }
  destruct s1 as [|c2 s2]; [by left|].
  destruct (JsString.isWhiteSpace2 c1 c2).
  { right. exists s2. simpl. split; [lia | done]. }
  destruct s2 as [|c3 s3]; [by left|].
  destruct (JsString.isWhiteSpace3 c1 c2 c3).
  { right. exists s3. simpl. split; [lia | done]. }
  by left.
Qed.

Lemma trimStart_empty (s : string) :
  JsString.trimStart s = EmptyString ↔ blank s = true.
Proof.
  remember (String.length s) as n eqn:Hn. revert s Hn.
  induction (lt_wf n) as [n _ IH]; intros s ->.
  destruct (trimStart_step s) as [[Hsame Hblank]|(s' & Hlen & -> & ->)].
  - rewrite Hsame. split; [by intros -> | exact Hblank].
  - by apply (IH (String.length s')).
Qed.

Lemma trimStart_idempotent (s : string) :
  JsString.trimStart (JsString.trimStart s) = JsString.trimStart s.
Proof.
  remember (String.length s) as n eqn:Hn. revert s Hn.
  induction (lt_wf n) as [n _ IH]; intros s ->.
  destruct (trimStart_step s) as [[Hsame _]|(s' & Hlen & -> & _)].
  - by rewrite !Hsame.
  - by apply (IH (String.length s')).
Qed.

Lemma trimEnd_empty (s : string) :
  JsString.trimEnd s = EmptyString ↔ JsString.trimStart s = EmptyString.
Proof.
  destruct s as [|c s]; [done|].
  change (JsString.trimEnd (String c s))
    with (if Js.truthy (JsString.trimStart (String c s))
          then String c (JsString.trimEnd s) else EmptyString).
  destruct (Js.truthy _) eqn:Htruthy.
  - split; [done|]. intros Hempty. rewrite Hempty in Htruthy. done.
  - by apply truthy_false in Htruthy.
Qed.

(** [trim] leaves nothing exactly of the texts made of white space. *)
Lemma trim_truthy (s : string) : Js.truthy (JsString.trim s) = negb (blank s).
Proof.
  unfold JsString.trim.
  destruct (blank s) eqn:Hblank; simpl.
  - apply trimStart_empty in Hblank. by rewrite Hblank.
  - destruct (Js.truthy _) eqn:Htruthy; [done|].
    apply truthy_false, trimEnd_empty in Htruthy.
    rewrite trimStart_idempotent in Htruthy.
    apply trimStart_empty in Htruthy. congruence.
Qed.

(** [trim] on a text with white space of each length around it, and on a
    text of white space only. *)
Example trim_strips_both_ends :
  let nbsp := String (Ascii.ascii_of_nat 194) (String (Ascii.ascii_of_nat 160) "") in
  let ideographic :=
    String (Ascii.ascii_of_nat 227)
      (String (Ascii.ascii_of_nat 128) (String (Ascii.ascii_of_nat 128) "")) in
  JsString.trim (" " +:+ nbsp +:+ ideographic +:+ "a lake" +:+ ideographic
                 +:+ nbsp +:+ " ") = "a lake" ∧
  JsString.trim (ideographic +:+ " " +:+ nbsp) = EmptyString ∧
  JsString.trim " a  b " = "a  b".
Proof. vm_compute. repeat split; reflexivity. Qed.

(** X17. [handleSend] does nothing when the text is only white space and no
    image is selected, and only then; otherwise it hands over the text as
    typed (not trimmed) with the current settings, and empties the text and
    the selection while keeping the settings.  The send button is disabled
    in exactly the states in which [handleSend] does nothing, and Enter
    without Shift is the same as [handleSend]. *)
Theorem handleSend_contract (st : ChatInput.State) :
  ChatInput.handleKeyDown "Enter" false st = ChatInput.handleSend st ∧
  ChatInput.handleKeyDown "Enter" true st = (st, ChatInput.Nothing) ∧
  if blank (ChatInput.text st) &&
     bool_decide (ChatInput.selectedImage st = None)
  then ChatInput.handleSend st = (st, ChatInput.Nothing) ∧
       ChatInput.send_button_disabled false st = true
  else ChatInput.send_button_disabled false st = false ∧
       ∃ args,
         ChatInput.handleSend st =
           ({| ChatInput.text := EmptyString;
               ChatInput.selectedImage := None;
               ChatInput.showSettings := ChatInput.showSettings st;
               ChatInput.config := ChatInput.config st |},
            ChatInput.OnSendMessage args) ∧
         ChatInput.sent_text args = ChatInput.text st ∧
         ChatInput.sent_config args = ChatInput.config st.
Proof.
  split; [done|]. split; [done|].
  unfold ChatInput.handleSend, ChatInput.send_button_disabled.
  rewrite trim_truthy, negb_involutive. simpl.
  destruct (blank (ChatInput.text st)); simpl.
  - destruct (ChatInput.selectedImage st) as [image|]; simpl; [|done].
    split; [done|]. by eexists.
  - split; [done|]. by eexists.
Qed.

Lemma split_no_separator (s : string) (sep : Ascii.ascii) :
  has_unit sep s = false → JsString.split s sep = [s].
Proof.
  induction s as [|c s IH]; [done|]. simpl.
  destruct (Ascii.eqb c sep); [done|]. simpl. intros Hs. by rewrite IH.
Qed.

Lemma split_at_separator (before after : string) (sep : Ascii.ascii) :
  has_unit sep before = false →
  JsString.split (before +:+ String sep after) sep =
  before :: JsString.split after sep.
Proof.
  induction before as [|c before IH].
  - intros _. change (EmptyString +:+ String sep after) with (String sep after).
    simpl. by rewrite Ascii.eqb_refl.
  - rewrite append_cons. simpl.
    destruct (Ascii.eqb c sep); [done|]. simpl. intros Hb. by rewrite IH.
Qed.

Lemma startsWith_truthy (s : string) :
  JsString.startsWith s "image/" = true → Js.truthy s = true.
Proof. by destruct s. Qed.

(** X18. A picked picture reaches the vendor as it was read: for a file whose
    type starts with "image/" and whose data URL is a header, a comma and a
    non-empty payload (neither with a further comma), [handleImageSelect]
    followed by [handleSend] and the request made of the arguments puts into
    the object handed to the vendor the payload as [imageBytes], the file's
    type as [mimeType], and the typed text as [prompt]. *)
Theorem picture_reaches_vendor (st : ChatInput.State)
    (type header bytes : string) :
  JsString.startsWith type "image/" = true →
  has_unit ChatInput.comma header = false →
  has_unit ChatInput.comma bytes = false →
  bytes ≠ EmptyString →
  let result := header +:+ String ChatInput.comma bytes in
  let picked :=
    fst (ChatInput.handleImageSelect (Some (type, Some result)) st) in
  ∃ args,
    snd (ChatInput.handleSend picked) = ChatInput.OnSendMessage args ∧
    ChatInput.sent_imageBase64 args = Some bytes ∧
    ChatInput.sent_mimeType args = Some type ∧
    let payload :=
      GeminiService.payload
        (App.request (ChatInput.sent_text args) (ChatInput.sent_imageBase64 args)
           (ChatInput.sent_mimeType args) (ChatInput.sent_config args)) in
    payload !! "prompt" = Some (Js.JStr (ChatInput.text st)) ∧
    payload !! "image" =
      Some (Js.JObj (Js.object [("imageBytes", Js.JStr bytes);
                                ("mimeType", Js.JStr type)])).
Proof.
  intros Htype Hheader Hbytes Hnonempty. cbv zeta.
  unfold ChatInput.handleImageSelect. rewrite Htype. simpl.
  rewrite split_at_separator, split_no_separator by done. simpl.
  unfold ChatInput.handleSend. simpl. rewrite andb_false_r.
  eexists. split; [done|]. simpl.
  assert (Js.truthy bytes = true) as Hb.
  { destruct (Js.truthy bytes) eqn:Ht; [done|]. by apply truthy_false in Ht. }
  unfold ChatInput.or_null. simpl.
  rewrite Hb, (startsWith_truthy type Htype).
  split; [done|]. split; [done|].
  unfold App.request, GeminiService.payload. simpl. rewrite Hb. simpl.
  split; reflexivity.
Qed.

Lemma picture_reaches_vendor_witness :
  ∃ args,
    snd (ChatInput.handleSend
           (fst (ChatInput.handleImageSelect
                   (Some ("image/png", Some "data:image/png;base64,iVBORw0KGgo="))
                   ChatInput.initial))) = ChatInput.OnSendMessage args ∧
    ChatInput.sent_imageBase64 args = Some "iVBORw0KGgo=" ∧
    ChatInput.sent_mimeType args = Some "image/png".
Proof.
  destruct (picture_reaches_vendor ChatInput.initial "image/png"
              "data:image/png;base64" "iVBORw0KGgo=")
    as (args & Hsend & Himage & Hmime & _);
    [reflexivity | reflexivity | reflexivity | discriminate |].
  by exists args.
Defined.

(** *** The type of the selected image *)

Lemma step_typed disabled e st :
  typed st → typed (fst (ChatInput.step disabled e st)).
Proof.
  intros Hst.
  assert (typed (fst (ChatInput.handleSend st))) as Hsend.
  { unfold ChatInput.handleSend. by destruct (_ && _). }
  unfold typed in *.
  destruct e as [value|[[type [result|]]|]| | | | |key shiftKey|]; simpl;
    try done.
  - by destruct disabled.
  - destruct (JsString.startsWith type "image/") eqn:Htype; simpl; [|done].
    intros image [= <-]. done.
  - by destruct (negb _).
  - destruct disabled; [done|]. unfold ChatInput.handleKeyDown.
    destruct (_ && _); [by apply Hsend | done].
  - destruct (ChatInput.send_button_disabled disabled st); [done|].
    by apply Hsend.
Qed.

Lemma after_typed events st : typed st → typed (ChatInput.after events st).
Proof.
  revert st. induction events as [|[disabled e] events IH]; intros st Hst; [done|].
  simpl. by apply IH, step_typed.
Qed.

(** X19. The non-null assertion of App.tsx line 87 ([mimeType!]) holds for
    everything the input component sends: whatever was done to the component
    since it was mounted, a request made of what it sends has either no
    image, or an image whose [mimeType] is a string that starts with
    "image/" (never [null]) and whose bytes are not empty. *)
Theorem sent_image_has_type (events : list (bool * ChatInput.Event))
    (disabled : bool) (e : ChatInput.Event) (args : ChatInput.Sent)
    (image : ImageData) :
  snd (ChatInput.step disabled e (ChatInput.after events ChatInput.initial))
    = ChatInput.OnSendMessage args →
  GenerationRequest.image
    (App.request (ChatInput.sent_text args) (ChatInput.sent_imageBase64 args)
       (ChatInput.sent_mimeType args) (ChatInput.sent_config args)) = Some image →
  data image ≠ EmptyString ∧
  ∃ type, mimeType image = Some type ∧
          JsString.startsWith type "image/" = true.
Proof.
  pose proof (after_typed events ChatInput.initial) as Htyped.
  set (st := ChatInput.after events ChatInput.initial) in *.
  assert (typed st) as Hst by (by apply Htyped). clear Htyped.
  intros Hsent Himage.
  assert (snd (ChatInput.handleSend st) = ChatInput.OnSendMessage args) as Hsend.
  { destruct e as [value|[[type [result|]]|]| | | | |key shiftKey|];
      simpl in Hsent; try done.
    - by destruct disabled.
    - by destruct (negb _).
    - by destruct (negb _).
    - destruct disabled; [done|]. unfold ChatInput.handleKeyDown in Hsent.
      by destruct (_ && _).
    - by destruct (ChatInput.send_button_disabled disabled st). }
  clear Hsent. unfold ChatInput.handleSend in Hsend.
  destruct (_ && _); [done|]. simpl in Hsend. injection Hsend as <-.
  simpl in Himage. unfold typed in Hst.
  destruct (ChatInput.selectedImage st) as [selected|]; [|done].
  specialize (Hst selected eq_refl).
  unfold App.request, ChatInput.or_null in Himage. simpl in Himage.
  destruct (ChatInput.base64 selected) as [bytes|]; [|done]. simpl in Himage.
  destruct (Js.truthy bytes) eqn:Hbytes; [|done]. rewrite Hbytes in Himage.
  injection Himage as <-. simpl.
  rewrite (startsWith_truthy _ Hst). split.
  - intros ->. done.
  - by eexists.
Qed.

Lemma sent_image_has_type_witness :
  ∃ type, Some "image/png" = Some type ∧
          JsString.startsWith type "image/" = true.
Proof.
  apply (sent_image_has_type
           [(false, ChatInput.SelectFile
                      (Some ("image/png",
                             Some "data:image/png;base64,iVBORw0KGgo=")))]
           false ChatInput.ClickSend
           {| ChatInput.sent_text := EmptyString;
              ChatInput.sent_imageBase64 := Some "iVBORw0KGgo=";
              ChatInput.sent_mimeType := Some "image/png";
              ChatInput.sent_config := Scenario.landscape_720p |}
           {| data := "iVBORw0KGgo="; mimeType := Some "image/png" |});
    reflexivity.
Defined.

End ChatInputFacts.

(** ** What is shown of a message *)

Module ChatMessageFacts.
Import Types Vendor App AppFacts AppMore Sessions.

Lemma resolved_consistent result msg :
  consistent msg → consistent (resolved result msg).
Proof.
  unfold consistent. destruct result as [url|e|]; simpl; [| |done]; intros _.
  - by eexists.
  - eexists. split; [done|]. by apply or_else_truthy.
Qed.

Lemma touch_consistent a result msg :
  consistent msg → consistent (touch a result msg).
Proof.
  unfold touch. destruct (String.eqb _ _); [apply resolved_consistent | done].
Qed.

Lemma step_consistent e s :
  Forall consistent (messages (app s)) →
  Forall consistent (messages (app (step e s))).
Proof.
  intros Hall. destruct (step_shape e s) as (result & a & ->).
  apply Forall_app. split.
  - apply Forall_fmap. eapply Forall_impl; [exact Hall|].
    intros msg. apply touch_consistent.
  - destruct e as [| |text image mime config clock|]; simpl; try constructor.
    destruct (apiKeySet (app s)); repeat constructor.
Qed.

Lemma run_consistent events s :
  Forall consistent (messages (app s)) →
  Forall consistent (messages (app (run events s))).
Proof.
  revert s. induction events as [|e events IH]; intros s Hall; [done|].
  rewrite run_cons. by apply IH, step_consistent.
Qed.

(** X20. What the bubble of a message shows, for every message of every
    session: a message in error shows the banner with its (non-empty) error
    text and neither spinner nor player; a placeholder that is generating
    shows the spinner and nothing else, not even a text; a complete message
    has a URL and shows the player for it (unless the URL is the empty
    string), with the download named after its timestamp; any other message
    shows none of the three.  No message is ever pending. *)
Theorem bubble_fits_status (now : Z) (events : list Event) (msg : Message.t) :
  msg ∈ messages (app (run events (mounted now))) →
  let view := ChatMessage.render msg in
  match Message.status msg with
  | Some error =>
      ChatMessage.generating_indicator view = false ∧
      ChatMessage.video view = None ∧
      ∃ t, ChatMessage.error_banner view = Some t ∧ t ≠ EmptyString
  | Some generating =>
      ChatMessage.generating_indicator view = true ∧
      ChatMessage.error_banner view = None ∧
      ChatMessage.video view = None ∧
      ChatMessage.text view = None
  | Some complete =>
      ChatMessage.generating_indicator view = false ∧
      ChatMessage.error_banner view = None ∧
      ∃ url, Message.videoUrl msg = Some url ∧
             ChatMessage.video view =
               if Js.truthy url
               then Some (url, "veo-generation-"
                               +:+ Js.toString (Message.timestamp msg) +:+ ".mp4")
               else None
  | Some pending => False
  | None =>
      ChatMessage.generating_indicator view = false ∧
      ChatMessage.error_banner view = None ∧
      ChatMessage.video view = None
  end.
Proof.
  intros Hin. cbv zeta.
  assert (consistent msg) as Hmsg.
  { assert (Forall consistent (messages (app (run events (mounted now))))) as Hall.
    { apply run_consistent. repeat constructor. }
    rewrite Forall_forall in Hall. by apply Hall. }
  unfold consistent in Hmsg. unfold ChatMessage.render. simpl.
  destruct (Message.status msg) as [[| | |]|]; simpl.
  - done.
  - destruct Hmsg as (Htext & Hurl & Herror). by rewrite Htext, Hurl.
  - destruct Hmsg as (url & ->). simpl. rewrite andb_true_r.
    repeat split; by eexists.
  - destruct Hmsg as (t & -> & Ht). simpl. rewrite Ht.
    repeat split.
    + by destruct (Message.videoUrl msg) as [url|]; [rewrite andb_false_r|].
    + exists t. split; [done|]. by intros ->.
  - destruct Hmsg as (-> & _). done.
Qed.

Lemma bubble_fits_status_witness :
  ChatMessage.generating_indicator
    (ChatMessage.render
       (Message.mk "2001" agent None None None (Some error)
          (Some "Failed to download video: Forbidden") 2000)) = false.
Proof.
  apply (bubble_fits_status 0
           (Scenario.first_call 1000 ++ Scenario.then_second_call 2000)
           (Message.mk "2001" agent None None None (Some error)
              (Some "Failed to download video: Forbidden") 2000)).
  apply (list_elem_of_lookup_2 _ 4). reflexivity.
Defined.

End ChatMessageFacts.
